(** * Dialogue transcoding between platoHtml, platoText and CMJ

    A shallow embedding of [assets/js/utilities.js]: the five conversion
    functions [platoHtmlToCmj], [platoHtmlToPlatoText], [platoTextToPlatoHtml],
    [platoTextToCmj] and [CmjToPlatoText], together with the parts of the
    JavaScript host they run on (strings of UTF-16 code units, the
    backtracking pattern matcher, the DOM tree, values and completions). *)

From Stdlib Require Import String Ascii List NArith ZArith Bool Arith Lia.
Import ListNotations.

(** ** Strings

    A JavaScript string is a finite sequence of 16-bit code units. *)

Definition codeunit := N.
Definition jsstring := list codeunit.

(** String literals of the source, written in Basic Latin. *)
Definition js (s : string) : jsstring :=
  map N_of_ascii (list_ascii_of_string s).

Definition LF : codeunit := 10%N.
Definition QUOT : codeunit := 34%N.

Fixpoint jsstring_eqb (a b : jsstring) : bool :=
  match a, b with
  | [], [] => true
  | x :: a', y :: b' => N.eqb x y && jsstring_eqb a' b'
  | _, _ => false
  end.

(** [WhiteSpace] and [LineTerminator] of ECMAScript: what [trim], [trimEnd]
    and the pattern escape [\s] remove or match. *)
Definition isWhiteSpace (c : codeunit) : bool :=
  ((9 <=? c) && (c <=? 13) || (c =? 32) || (c =? 160) || (c =? 5760)
   || (8192 <=? c) && (c <=? 8202) || (c =? 8232) || (c =? 8233)
   || (c =? 8239) || (c =? 8287) || (c =? 12288) || (c =? 65279))%N.

Fixpoint dropWhile (p : codeunit -> bool) (s : jsstring) : jsstring :=
  match s with
  | [] => []
  | c :: s' => if p c then dropWhile p s' else s
  end.

Definition trimStart (s : jsstring) : jsstring := dropWhile isWhiteSpace s.
Definition trimEnd (s : jsstring) : jsstring :=
  rev (dropWhile isWhiteSpace (rev s)).
Definition trim (s : jsstring) : jsstring := trimEnd (trimStart s).

(** [s.startsWith(pat)]. *)
Fixpoint startsWith (pat s : jsstring) : bool :=
  match pat, s with
  | [], _ => true
  | p :: pat', c :: s' => N.eqb p c && startsWith pat' s'
  | _ :: _, [] => false
  end.

(** [s.replace(pat, repl)] for a string pattern: the first occurrence of
    [pat], scanning from the left, is replaced; [repl] is taken literally
    (the replacements of the source hold no [$]). *)
Fixpoint replaceString (pat repl s : jsstring) : jsstring :=
  if startsWith pat s then repl ++ skipn (length pat) s
  else match s with
       | [] => []
       | c :: s' => c :: replaceString pat repl s'
       end.

(** ** Values and completions *)

(** Numbers are IEEE doubles; the code only ever asks for their type and
    their truthiness, so a sign, a magnitude and the two special cases are
    all that is represented. *)
Inductive JsNum : Type :=
| NumNaN
| NumInfinity (negative : bool)
| NumFinite (negative : bool) (mantissa : N) (exponent : Z).

(** The values the functions are run on: primitives, dense arrays and plain
    objects whose properties are own data properties, that is the values of
    JSON together with [undefined], [NaN] and the infinities. Accessor
    properties, proxies and functions are outside the model. *)
#[local] Unset Elimination Schemes.
Inductive JsValue : Type :=
| JsUndefined
| JsNull
| JsBoolean (b : bool)
| JsNumber (n : JsNum)
| JsString (s : jsstring)
| JsArray (elements : list JsValue)
| JsObject (properties : list (jsstring * JsValue)).
#[local] Set Elimination Schemes.

Inductive JsError : Type :=
| Error (message : jsstring)
| TypeError.

(** The outcome of running a function: a value, a thrown error, or
    [OutOfFuel] when the bound the model puts on a [while] loop was reached
    before the loop ended. *)
Inductive Completion (A : Type) : Type :=
| Normal (value : A)
| Throw (error : JsError)
| OutOfFuel.

Arguments Normal {A} value.
Arguments Throw {A} error.
Arguments OutOfFuel {A}.

Definition bind {A B : Type} (m : Completion A) (f : A -> Completion B)
  : Completion B :=
  match m with
  | Normal a => f a
  | Throw e => Throw e
  | OutOfFuel => OutOfFuel
  end.

Notation "x <- m ;; k" := (bind m (fun x => k))
  (at level 61, m at next level, right associativity).

(** [typeof v]. *)
Definition typeof (v : JsValue) : jsstring :=
  match v with
  | JsUndefined => js "undefined"
  | JsNull => js "object"
  | JsBoolean _ => js "boolean"
  | JsNumber _ => js "number"
  | JsString _ => js "string"
  | JsArray _ => js "object"
  | JsObject _ => js "object"
  end.

(** [ToBoolean]: what [!v] and [v && ...] test. *)
Definition ToBoolean (v : JsValue) : bool :=
  match v with
  | JsUndefined | JsNull => false
  | JsBoolean b => b
  | JsNumber NumNaN => false
  | JsNumber (NumInfinity _) => true
  | JsNumber (NumFinite _ m _) => negb (N.eqb m 0)
  | JsString s => negb (jsstring_eqb s [])
  | JsArray _ | JsObject _ => true
  end.

Definition isArray (v : JsValue) : bool :=
  match v with JsArray _ => true | _ => false end.

Fixpoint lookup (key : jsstring) (props : list (jsstring * JsValue))
  : option JsValue :=
  match props with
  | [] => None
  | (k, v) :: props' => if jsstring_eqb k key then Some v else lookup key props'
  end.

(** [v.key] for a key that no built-in prototype defines (the source reads
    [name] and [content] only): an own property of a plain object, [undefined]
    on any other value that has properties, and a [TypeError] on [undefined]
    and [null]. *)
Definition getProperty (v : JsValue) (key : jsstring) : Completion JsValue :=
  match v with
  | JsUndefined | JsNull => Throw TypeError
  | JsObject props =>
      match lookup key props with
      | Some x => Normal x
      | None => Normal JsUndefined
      end
  | _ => Normal JsUndefined
  end.

(** [v.trim()]: only strings have the method. *)
Definition callTrim (v : JsValue) : Completion jsstring :=
  match v with
  | JsString s => Normal (trim s)
  | _ => Throw TypeError
  end.

(** The elements of a value already known to be an array. *)
Definition arrayElements (v : JsValue) : list JsValue :=
  match v with JsArray l => l | _ => [] end.

(** The string behind a value already known to be one. *)
Definition stringData (v : JsValue) : jsstring :=
  match v with JsString s => s | _ => [] end.

(** The console: each call appends an entry. *)
Inductive LogLevel : Type := LogError | LogWarn.
Definition Console := list (LogLevel * list JsValue).

(** ** Patterns

    The fragment of ECMAScript patterns the source uses: a class of code
    units (a literal is a class of one), a quantified class ([+], [*] and
    the lazy [*?]), concatenation and capturing groups. The matcher is the
    backtracking matcher of the language specification in continuation
    style: a matcher takes the state reached so far and the continuation
    that matches the rest of the pattern, and the first success in priority
    order is the result. *)

Inductive regex : Type :=
| Class (p : codeunit -> bool)
| Repeat (min : nat) (greedy : bool) (p : codeunit -> bool)
| Seq (r1 r2 : regex)
| Group (n : nat) (r : regex).

Definition Chr (c : codeunit) : regex := Class (N.eqb c).

Definition captures := list (nat * jsstring).

(** Matching runs over the text that is left; the captures are those of
    the groups closed so far, the latest first. *)
Record MatchState : Type := mkState { rest : jsstring; caps : captures }.

Definition continuation := MatchState -> option MatchState.

Fixpoint capture (n : nat) (cs : captures) : option jsstring :=
  match cs with
  | [] => None
  | (k, s) :: cs' => if Nat.eqb k n then Some s else capture n cs'
  end.

(** [RepeatMatcher] for a class: with [min] iterations still owed one code
    unit of the class must follow; after that a greedy quantifier first tries
    one more iteration and falls back to the continuation, a lazy one tries
    the continuation first. *)
Fixpoint repeatMatcher (p : codeunit -> bool) (greedy : bool) (min : nat)
    (s : jsstring) (k : jsstring -> option MatchState) : option MatchState :=
  match min with
  | S min' =>
      match s with
      | c :: s' => if p c then repeatMatcher p greedy min' s' k else None
      | [] => None
      end
  | O =>
      if greedy then
        match
          match s with
          | c :: s' => if p c then repeatMatcher p greedy O s' k else None
          | [] => None
          end
        with
        | Some r => Some r
        | None => k s
        end
      else
        match k s with
        | Some r => Some r
        | None =>
            match s with
            | c :: s' => if p c then repeatMatcher p greedy O s' k else None
            | [] => None
            end
        end
  end.

Fixpoint matcher (r : regex) (x : MatchState) (k : continuation)
  : option MatchState :=
  match r with
  | Class p =>
      match rest x with
      | c :: s' => if p c then k (mkState s' (caps x)) else None
      | [] => None
      end
  | Repeat min greedy p =>
      repeatMatcher p greedy min (rest x) (fun s' => k (mkState s' (caps x)))
  | Seq r1 r2 => matcher r1 x (fun y => matcher r2 y k)
  | Group n r1 =>
      matcher r1 x (fun y =>
        k (mkState (rest y)
             ((n, firstn (length (rest x) - length (rest y)) (rest x))
                :: caps y)))
  end.

(** One attempt at the start of [s]. *)
Definition matchAt (r : regex) (s : jsstring) : option MatchState :=
  matcher r (mkState s []) Some.

(** The search of [RegExpBuiltinExec]: attempts at index [i], [i + 1], ...
    up to and including the end of the input; [s] is the input from index
    [i] on. *)
Fixpoint searchFrom (r : regex) (i : nat) (s : jsstring)
  : option (nat * MatchState) :=
  match matchAt r s with
  | Some y => Some (i, y)
  | None =>
      match s with
      | [] => None
      | _ :: s' => searchFrom r (S i) s'
      end
  end.

(** A pattern object with the [g] flag: [lastIndex] is its only state. *)
Record RegExpObject : Type := mkRegExp { source : regex; lastIndex : nat }.

(** The array [exec] returns: [index], and [match[n]] for the groups. *)
Record MatchResult : Type := mkMatch { index : nat; groups : captures }.

Definition group (m : MatchResult) (n : nat) : JsValue :=
  match capture n (groups m) with
  | Some s => JsString s
  | None => JsUndefined
  end.

(** [regex.exec(str)] for a global pattern: the search starts at
    [lastIndex]; a match moves [lastIndex] to its end, a failure resets it
    to 0. *)
Definition exec (re : RegExpObject) (str : jsstring)
  : RegExpObject * option MatchResult :=
  if length str <? lastIndex re then (mkRegExp (source re) 0, None)
  else
    match searchFrom (source re) (lastIndex re) (skipn (lastIndex re) str) with
    | None => (mkRegExp (source re) 0, None)
    | Some (i, y) =>
        (mkRegExp (source re) (length str - length (rest y)),
         Some (mkMatch i (caps y)))
    end.

(** [str.replace(pattern, repl)] for a pattern object and a replacement
    without [$]: the first match is replaced, and with the [g] flag every
    later one too; after an empty match the scan moves on by one code
    unit. *)
Fixpoint replaceFrom (fuel : nat) (r : regex) (global : bool)
    (repl s : jsstring) : jsstring :=
  match fuel with
  | O => s
  | S fuel' =>
      match searchFrom r 0 s with
      | None => s
      | Some (i, y) =>
          firstn i s ++ repl ++
          (if negb global then rest y
           else if length (rest y) <? length (skipn i s)
                then replaceFrom fuel' r global repl (rest y)
                else match rest y with
                     | [] => []
                     | c :: s' => c :: replaceFrom fuel' r global repl s'
                     end)
      end
  end.

Definition replaceRegExp (r : regex) (global : bool) (repl s : jsstring)
  : jsstring :=
  replaceFrom (S (length s)) r global repl s.

(** ** The document tree

    What [DOMParser] hands back, as far as the source looks at it: elements
    with a local name, a class list and children; text and comment nodes; and
    the mode of the document, which the parser sets from the doctype of the
    markup (quirks mode when there is none). *)

#[local] Unset Elimination Schemes.
Inductive Node : Type :=
| Text (data : jsstring)
| Comment (data : jsstring)
| Element (localName : jsstring) (classList : list jsstring)
    (childNodes : list Node).
#[local] Set Elimination Schemes.

Inductive DocumentMode : Type := NoQuirks | LimitedQuirks | Quirks.

Record Document : Type :=
  mkDocument { documentMode : DocumentMode; documentChildren : list Node }.

(** The data of the text nodes below [n], in tree order. *)
Fixpoint descendantText (n : Node) : jsstring :=
  match n with
  | Text d => d
  | Comment _ => []
  | Element _ _ children => flat_map descendantText children
  end.

(** [n.textContent]. *)
Definition textContent (n : Node) : jsstring :=
  match n with
  | Comment d => d
  | _ => descendantText n
  end.

(** The nodes below [n], in tree order. *)
Fixpoint descendants (n : Node) : list Node :=
  match n with
  | Element _ _ children => flat_map (fun c => c :: descendants c) children
  | _ => []
  end.

(** ASCII lower-casing, which maps [A]-[Z] to [a]-[z] and nothing else. *)
Definition asciiLowerCase (s : jsstring) : jsstring :=
  map (fun c => if ((65 <=? c) && (c <=? 90))%N then (c + 32)%N else c) s.

(** A class selector against one class of an element: in a quirks-mode
    document the two are compared ASCII case-insensitively, otherwise code
    unit by code unit. *)
Definition classMatches (mode : DocumentMode) (cls c : jsstring) : bool :=
  match mode with
  | Quirks => jsstring_eqb (asciiLowerCase cls) (asciiLowerCase c)
  | _ => jsstring_eqb cls c
  end.

(** The compound selector [tag.cls], for the lower-case [tag] the source
    writes, in a document of mode [mode]. *)
Definition matchesSelector (mode : DocumentMode) (tag cls : jsstring)
    (n : Node) : bool :=
  match n with
  | Element name classes _ =>
      jsstring_eqb name tag && existsb (classMatches mode cls) classes
  | _ => false
  end.

(** [doc.querySelectorAll('tag.cls')]. *)
Definition querySelectorAll (doc : Document) (tag cls : jsstring) : list Node :=
  filter (matchesSelector (documentMode doc) tag cls)
    (flat_map (fun c => c :: descendants c) (documentChildren doc)).

(** [element.querySelector('tag.cls')] for an element of the document
    [ownerDocument]: the first match below the element, [None] for [null]. *)
Definition querySelector (ownerDocument : Document) (element : Node)
    (tag cls : jsstring) : option Node :=
  hd_error (filter (matchesSelector (documentMode ownerDocument) tag cls)
              (descendants element)).

(** ** utilities.js *)

(** A CMJ message as the two producers build it. *)
Record Message : Type :=
  mkMessage { role : jsstring; name : jsstring; content : jsstring }.

(** The object literal [{role, name, content}] as a value. *)
Definition messageValue (m : Message) : JsValue :=
  JsObject [(js "role", JsString (role m)); (js "name", JsString (name m));
            (js "content", JsString (content m))].

(** [/([A-Za-z0-9_ -]+):\s*(.*?)\n\n/gs] *)
Definition isLabelChar (c : codeunit) : bool :=
  ((65 <=? c) && (c <=? 90) || (97 <=? c) && (c <=? 122)
   || (48 <=? c) && (c <=? 57) || (c =? 95) || (c =? 32) || (c =? 45))%N.

Definition blockPattern : regex :=
  Seq (Group 1 (Repeat 1 true isLabelChar))
    (Seq (Chr 58%N)
       (Seq (Repeat 0 true isWhiteSpace)
          (Seq (Group 2 (Repeat 0 false (fun _ => true)))
             (Seq (Chr LF) (Chr LF))))).

(** [/:\s*/] *)
Definition colonPattern : regex := Seq (Chr 58%N) (Repeat 0 true isWhiteSpace).

(** [/</g] and [/>/g] *)
Definition ltPattern : regex := Chr 60%N.
Definition gtPattern : regex := Chr 62%N.

(** [<p class="dialogue"><span class="speaker">] *)
Definition paragraphOpen : jsstring :=
  js "<p class=" ++ [QUOT] ++ js "dialogue" ++ [QUOT] ++ js "><span class="
    ++ [QUOT] ++ js "speaker" ++ [QUOT] ++ js ">".

Section Host.

(** What the functions take from their host: [String.prototype.toUpperCase]
    (the Unicode upper-casing of a string), the HTML parser behind
    [new DOMParser().parseFromString(_, 'text/html')], and the configured
    machine name [machineConfig.name], a string set up outside this file. *)
Variable toUpperCase : jsstring -> jsstring.
Variable parseFromString : jsstring -> Document.
Variable machineConfig_name : jsstring.

(** The body of [paragraphs.forEach] in [platoHtmlToCmj], for paragraphs of
    the document [doc]. *)
Definition platoHtmlToCmj_each (doc : Document) (messages : list Message)
    (p : Node) : list Message :=
  match querySelector doc p (js "span") (js "speaker") with
  | None => messages
  | Some speakerSpan =>
      let speaker := trim (textContent speakerSpan) in
      let utterance :=
        trim (replaceRegExp colonPattern false []
                (replaceString (textContent speakerSpan) [] (textContent p))) in
      let role :=
        if jsstring_eqb (toUpperCase speaker) machineConfig_name
        then js "assistant"
        else if jsstring_eqb (toUpperCase speaker) (js "INSTRUCTIONS")
             then js "system"
             else js "user" in
      messages ++ [mkMessage role speaker utterance]
  end.

Definition platoHtmlToCmj (platoHtml : JsValue) : Completion (list Message) :=
  if negb (ToBoolean platoHtml)
     || negb (jsstring_eqb (typeof platoHtml) (js "string"))
  then Throw (Error (js "Invalid input: platoHtml must be a non-empty string"))
  else
    let doc := parseFromString (stringData platoHtml) in
    let paragraphs := querySelectorAll doc (js "p") (js "dialogue") in
    Normal (fold_left (platoHtmlToCmj_each doc) paragraphs []).

(** The body of [paragraphs.forEach] in [platoHtmlToPlatoText], for
    paragraphs of the document [doc]. *)
Definition platoHtmlToPlatoText_each (doc : Document) (result : jsstring)
    (p : Node) : jsstring :=
  match querySelector doc p (js "span") (js "speaker") with
  | None => result
  | Some speakerSpan =>
      let speaker := trim (textContent speakerSpan) in
      let utterance :=
        trim (replaceRegExp colonPattern false []
                (replaceString (textContent speakerSpan) [] (textContent p))) in
      result ++ speaker ++ js ": " ++ utterance ++ [LF; LF]
  end.

Definition platoHtmlToPlatoText (platoHtml : JsValue) : Completion jsstring :=
  if negb (jsstring_eqb (typeof platoHtml) (js "string"))
  then Throw (Error (js "Invalid input: platoHtml must be a string"))
  else if negb (ToBoolean (JsString (trim (stringData platoHtml))))
  then Normal []
  else
    let doc := parseFromString (stringData platoHtml) in
    let paragraphs := querySelectorAll doc (js "p") (js "dialogue") in
    Normal (fold_left (platoHtmlToPlatoText_each doc) paragraphs []).

(** The [while] loop of [platoTextToPlatoHtml]: [regex] and [result] are the
    variables it updates. *)
Fixpoint platoTextToPlatoHtml_loop (fuel : nat) (platoText : jsstring)
    (regex : RegExpObject) (result : jsstring) : Completion jsstring :=
  match fuel with
  | O => OutOfFuel
  | S fuel' =>
      match exec regex platoText with
      | (_, None) => Normal result
      | (regex', Some m) =>
          speaker <- callTrim (group m 1) ;;
          trimmed <- callTrim (group m 2) ;;
          let utterance :=
            replaceRegExp gtPattern true (js "&gt;")
              (replaceRegExp ltPattern true (js "&lt;") trimmed) in
          platoTextToPlatoHtml_loop fuel' platoText regex'
            (result ++ paragraphOpen ++ speaker ++ js "</span> "
               ++ utterance ++ js "</p>" ++ [LF])
      end
  end.

Definition platoTextToPlatoHtml (platoText : JsValue) : Completion jsstring :=
  if negb (jsstring_eqb (typeof platoText) (js "string"))
  then Throw (Error (js "Invalid input: platoText must be a string"))
  else if negb (ToBoolean (JsString (trim (stringData platoText))))
  then Normal []
  else
    result <- platoTextToPlatoHtml_loop (S (length (stringData platoText)))
                (stringData platoText) (mkRegExp blockPattern 0) [] ;;
    Normal (trimEnd result).

(** The [while] loop of [platoTextToCmj]. *)
Fixpoint platoTextToCmj_loop (fuel : nat) (platoText : jsstring)
    (regex : RegExpObject) (messages : list Message)
  : Completion (list Message) :=
  match fuel with
  | O => OutOfFuel
  | S fuel' =>
      match exec regex platoText with
      | (_, None) => Normal messages
      | (regex', Some m) =>
          speaker <- callTrim (group m 1) ;;
          utterance <- callTrim (group m 2) ;;
          let role :=
            if jsstring_eqb (toUpperCase speaker) (js "MACHINA RATIOCINATRIX")
            then js "assistant"
            else if jsstring_eqb (toUpperCase speaker) (js "INSTRUCTIONS")
                 then js "system"
                 else js "user" in
          platoTextToCmj_loop fuel' platoText regex'
            (messages ++ [mkMessage role speaker utterance])
      end
  end.

Definition platoTextToCmj (platoText : JsValue) : Completion (list Message) :=
  if negb (ToBoolean platoText)
     || negb (jsstring_eqb (typeof platoText) (js "string"))
  then Throw (Error (js "Invalid input: platoText must be a non-empty string"))
  else
    platoTextToCmj_loop (S (length (stringData platoText)))
      (stringData platoText) (mkRegExp blockPattern 0) [].

End Host.

(** The condition
    [message && typeof message.name === 'string' && typeof message.content === 'string']. *)
Definition CmjToPlatoText_test (message : JsValue) : Completion bool :=
  if ToBoolean message then
    n <- getProperty message (js "name") ;;
    if jsstring_eqb (typeof n) (js "string") then
      c <- getProperty message (js "content") ;;
      Normal (jsstring_eqb (typeof c) (js "string"))
    else Normal false
  else Normal false.

(** The body of [cmjMessages.forEach]: [platoText] is the variable it
    appends to, and a warning goes to the console for an entry it skips. *)
Definition CmjToPlatoText_each (state : jsstring * Console) (message : JsValue)
  : Completion (jsstring * Console) :=
  let (platoText, console) := state in
  ok <- CmjToPlatoText_test message ;;
  if ok then
    n <- getProperty message (js "name") ;;
    speaker <- callTrim n ;;
    c <- getProperty message (js "content") ;;
    utterance <- callTrim c ;;
    Normal (platoText ++ speaker ++ js ": " ++ utterance ++ [LF; LF], console)
  else
    Normal (platoText,
            console ++ [(LogWarn,
              [JsString (js "Skipping malformed CMJ message object during CmjToPlatoText conversion:");
               message])]).

(** [array.forEach(f)] for a callback that updates the variables [state]
    and may throw. *)
Fixpoint forEach {S : Type} (f : S -> JsValue -> Completion S)
    (elements : list JsValue) (state : S) : Completion S :=
  match elements with
  | [] => Normal state
  | x :: elements' => state' <- f state x ;; forEach f elements' state'
  end.

Definition CmjToPlatoText (cmjMessages : JsValue) (console : Console)
  : Completion (jsstring * Console) :=
  if negb (isArray cmjMessages) then
    Normal ([], console ++ [(LogError,
              [JsString (js "Invalid input: cmjMessages must be an array.")])])
  else forEach CmjToPlatoText_each (arrayElements cmjMessages) ([], console).

(** * The vocabulary of the properties *)

(** ** What a match is *)

(** What a successful run of a pattern consumed and captured, whichever
    alternatives the matcher went through to find it. *)
Inductive Matches : regex -> MatchState -> MatchState -> Prop :=
| MatchesClass p c s cs :
    p c = true -> Matches (Class p) (mkState (c :: s) cs) (mkState s cs)
| MatchesRepeat min greedy p t s cs :
    min <= length t -> forallb p t = true ->
    Matches (Repeat min greedy p) (mkState (t ++ s) cs) (mkState s cs)
| MatchesSeq r1 r2 x y z :
    Matches r1 x y -> Matches r2 y z -> Matches (Seq r1 r2) x z
| MatchesGroup n r x y :
    Matches r x y ->
    Matches (Group n r) x
      (mkState (rest y)
         ((n, firstn (length (rest x) - length (rest y)) (rest x)) :: caps y)).

(** ** The text extractor

    The records the two text-consuming loops go through: the label and the
    body of each match of the block pattern, in the order [exec] finds
    them. *)
Fixpoint textBlocks (fuel : nat) (platoText : jsstring) (regex : RegExpObject)
  : list (jsstring * jsstring) :=
  match fuel with
  | O => []
  | S fuel' =>
      match exec regex platoText with
      | (_, None) => []
      | (regex', Some m) =>
          (stringData (group m 1), stringData (group m 2))
            :: textBlocks fuel' platoText regex'
      end
  end.

(** The blocks of a whole text. *)
Definition blocksOf (platoText : jsstring) : list (jsstring * jsstring) :=
  textBlocks (S (length platoText)) platoText (mkRegExp blockPattern 0).

(** Upper-casing and role of a trimmed label, as [platoTextToCmj] and
    [platoHtmlToCmj] decide it, for the assistant identity [identity]. *)
Definition roleFor (toUpperCase : jsstring -> jsstring)
    (identity speaker : jsstring) : jsstring :=
  if jsstring_eqb (toUpperCase speaker) identity then js "assistant"
  else if jsstring_eqb (toUpperCase speaker) (js "INSTRUCTIONS")
       then js "system"
       else js "user".

Definition MACHINA : jsstring := js "MACHINA RATIOCINATRIX".

(** The message [platoTextToCmj] pushes for a block. *)
Definition blockMessage (toUpperCase : jsstring -> jsstring)
    (block : jsstring * jsstring) : Message :=
  mkMessage (roleFor toUpperCase MACHINA (trim (fst block)))
    (trim (fst block)) (trim (snd block)).

(** ** Hosts to run the functions on

    Upper-casing within Basic Latin, where [toUpperCase] maps [a]-[z] to
    [A]-[Z] and leaves every other code unit alone; every host agrees with
    it on Basic Latin strings. *)
Definition upperBasicLatin (c : codeunit) : codeunit :=
  if ((97 <=? c) && (c <=? 122))%N then (c - 32)%N else c.

Definition isBasicLatin (c : codeunit) : bool := (c <? 128)%N.

Definition basicLatinUpper (s : jsstring) : jsstring := map upperBasicLatin s.

Definition BasicLatinUpper (toUpperCase : jsstring -> jsstring) : Prop :=
  forall s, forallb isBasicLatin s = true -> toUpperCase s = basicLatinUpper s.

(** The tree of
    [<p class="dialogue"><span class="speaker">Bob</span> Note: this</p>],
    the markup [platoTextToPlatoHtml] writes for the block [Bob: Note: this],
    and its document: in quirks mode, as the markup has no doctype. *)
Definition noteParagraph : Node :=
  Element (js "p") [js "dialogue"]
    [Element (js "span") [js "speaker"] [Text (js "Bob")];
     Text (js " Note: this")].

Definition noteDocument : Document :=
  mkDocument Quirks
             [Element (js "html") []
                [Element (js "head") [] [];
                 Element (js "body") [] [noteParagraph]]].

Definition noteMarkup : jsstring :=
  paragraphOpen ++ js "Bob</span> Note: this</p>".

(** ** What the CMJ producers return *)

(** A message whose name and content are trimmed and whose role was decided
    from the name, against the identity [identity]. *)
Definition Classified (toUpperCase : jsstring -> jsstring)
    (identity : jsstring) (m : Message) : Prop :=
  role m = roleFor toUpperCase identity (name m)
  /\ trim (name m) = name m /\ trim (content m) = content m.

(** What the two CMJ producers may end with on the argument [v]: an array
    whose messages all satisfy [P], or the error, and the error only for an
    argument that is not a non-empty string. *)
Definition producesAll (P : Message -> Prop) (v : JsValue)
    (c : Completion (list Message)) : Prop :=
  match c with
  | Normal messages => Forall P messages
  | Throw _ => v = JsString [] \/ typeof v <> js "string"
  | OutOfFuel => False
  end.

(** ** The rule for roles *)

(** The speaker labels [platoHtmlToCmj] extracts from the parsed document:
    the trimmed text of the speaker span of every dialogue paragraph that
    has one, in document order. *)
Definition htmlLabels (doc : Document) : list jsstring :=
  flat_map (fun p =>
              match querySelector doc p (js "span") (js "speaker") with
              | Some speakerSpan => [trim (textContent speakerSpan)]
              | None => []
              end)
    (querySelectorAll doc (js "p") (js "dialogue")).

(** The speaker labels [platoTextToCmj] extracts from a text: the trimmed
    first group of every match of the block pattern, in order. *)
Definition textLabels (platoText : jsstring) : list jsstring :=
  map (fun block => trim (fst block)) (blocksOf platoText).

(** The rule the spec gives for the role assigned to a label, for the
    assistant identity [identity]. *)
Definition RoleRule (toUpperCase : jsstring -> jsstring)
    (identity label role : jsstring) : Prop :=
  (role = js "assistant" <-> toUpperCase label = identity)
  /\ (role = js "system" <->
      toUpperCase label = js "INSTRUCTIONS" /\ toUpperCase label <> identity)
  /\ (role = js "user" <->
      toUpperCase label <> identity
      /\ toUpperCase label <> js "INSTRUCTIONS").

(** The message of an extracted label: it carries the label as its name and
    the role the rule assigns to the label. *)
Definition Labelled (toUpperCase : jsstring -> jsstring)
    (identity label : jsstring) (m : Message) : Prop :=
  name m = label /\ RoleRule toUpperCase identity label (role m).

(** Markup with a dialogue paragraph for each of the three roles, a
    paragraph without speaker label between them, and its tree. *)
Definition rolesMarkup : jsstring :=
  paragraphOpen ++ js "Machina Ratiocinatrix</span> Hello there.</p>" ++ [LF]
    ++ js "<p class=" ++ [QUOT] ++ js "dialogue" ++ [QUOT] ++ js ">aside</p>"
    ++ [LF]
    ++ paragraphOpen ++ js " instructions </span> Be concise.</p>" ++ [LF]
    ++ paragraphOpen ++ js "Alice</span> Hi!</p>".

Definition rolesDocument : Document :=
  mkDocument Quirks
    [Element (js "html") []
       [Element (js "head") [] [];
        Element (js "body") []
          [Element (js "p") [js "dialogue"]
             [Element (js "span") [js "speaker"]
                [Text (js "Machina Ratiocinatrix")];
              Text (js " Hello there.")];
           Text [LF];
           Element (js "p") [js "dialogue"] [Text (js "aside")];
           Text [LF];
           Element (js "p") [js "dialogue"]
             [Element (js "span") [js "speaker"] [Text (js " instructions ")];
              Text (js " Be concise.")];
           Text [LF];
           Element (js "p") [js "dialogue"]
             [Element (js "span") [js "speaker"] [Text (js "Alice")];
              Text (js " Hi!")]]]].

(** Text with a block for each role, the labels in mixed case and with
    white space around them. *)
Definition rolesText : jsstring :=
  js " machina Ratiocinatrix : Hello there." ++ [LF; LF]
    ++ js "Instructions: Be concise." ++ [LF; LF]
    ++ js "Alice: Hi!" ++ [LF; LF].

(** Markup with a paragraph as [platoTextToPlatoHtml] writes it and one
    whose class names are written with capitals, and its tree;
    [strictDocument] is the tree of the same markup after [<!DOCTYPE html>]. *)
Definition capitalsMarkup : jsstring :=
  paragraphOpen ++ js "Bob</span> Hi there</p>" ++ [LF]
    ++ js "<p class=" ++ [QUOT] ++ js "Dialogue" ++ [QUOT] ++ js "><span class="
    ++ [QUOT] ++ js "SPEAKER" ++ [QUOT] ++ js ">Al</span> Yo</p>".

Definition capitalsBody : list Node :=
  [Element (js "html") []
     [Element (js "head") [] [];
      Element (js "body") []
        [Element (js "p") [js "dialogue"]
           [Element (js "span") [js "speaker"] [Text (js "Bob")];
            Text (js " Hi there")];
         Text [LF];
         Element (js "p") [js "Dialogue"]
           [Element (js "span") [js "SPEAKER"] [Text (js "Al")];
            Text (js " Yo")]]]].

Definition capitalsDocument : Document := mkDocument Quirks capitalsBody.

Definition strictDocument : Document := mkDocument NoQuirks capitalsBody.

(** ** The invariant of CMJ output *)

(** A message with one of the three roles whose name and content are
    already trimmed. *)
Definition Normalised (m : Message) : Prop :=
  In (role m) [js "user"; js "assistant"; js "system"]
  /\ name m = trim (name m) /\ content m = trim (content m).

(** Trimming the name and the content of a message once more. *)
Definition retrim (m : Message) : Message :=
  mkMessage (role m) (trim (name m)) (trim (content m)).

(** ** Entries of a CMJ array *)

(** What [message.key] reads on an entry that is not [null] or [undefined]
    (and [undefined] on those): the own property of a plain object,
    [undefined] when there is none. *)
Definition field (key : jsstring) (message : JsValue) : JsValue :=
  match message with
  | JsObject props =>
      match lookup key props with Some x => x | None => JsUndefined end
  | _ => JsUndefined
  end.

(** The property [key] when it is a string. *)
Definition stringField (key : jsstring) (message : JsValue) : option jsstring :=
  match field key message with
  | JsString s => Some s
  | _ => None
  end.

(** What one entry adds to the text: its line when both fields are strings,
    nothing otherwise. *)
Definition entryText (message : JsValue) : jsstring :=
  match stringField (js "name") message, stringField (js "content") message with
  | Some n, Some c => trim n ++ js ": " ++ trim c ++ [LF; LF]
  | _, _ => []
  end.

(** What one entry adds to the console: the warning when it is skipped. *)
Definition entryLog (message : JsValue) : Console :=
  match stringField (js "name") message, stringField (js "content") message with
  | Some _, Some _ => []
  | _, _ =>
      [(LogWarn,
        [JsString (js "Skipping malformed CMJ message object during CmjToPlatoText conversion:");
         message])]
  end.

(** ** Arrays that differ in their roles *)

(** The string [CmjToPlatoText] returns, without the console. *)
Definition returned (c : Completion (jsstring * Console)) : Completion jsstring :=
  x <- c ;; Normal (fst x).

(** Two entries on which [message.name] reads the same value, and
    [message.content] too (a string or not, [undefined] when absent). *)
Definition sameFields (m m' : JsValue) : Prop :=
  field (js "name") m = field (js "name") m'
  /\ field (js "content") m = field (js "content") m'.

(** The entry [m] with its [role] set to [r], or deleted for [None]; a value
    that is no object is left as it is. *)
Definition withRole (r : option JsValue) (m : JsValue) : JsValue :=
  match m with
  | JsObject props =>
      JsObject
        (match r with Some v => [(js "role", v)] | None => [] end
         ++ filter (fun kv => negb (jsstring_eqb (fst kv) (js "role"))) props)
  | _ => m
  end.

Definition bobWithRole : JsValue :=
  JsObject [(js "role", JsString (js "assistant"));
            (js "name", JsString (js "Bob")); (js "content", JsString (js "Hey"))].

Definition bobWithoutRole : JsValue :=
  JsObject [(js "name", JsString (js "Bob")); (js "content", JsString (js "Hey"))].

(** Two line feeds in a row. *)
Fixpoint hasBlankLine (s : jsstring) : bool :=
  match s with
  | [] => false
  | c :: s' =>
      match s' with
      | d :: _ => (N.eqb c LF && N.eqb d LF) || hasBlankLine s'
      | [] => false
      end
  end.

(** ** The round trip through platoText *)

Definition nameOf (message : JsValue) : jsstring :=
  match stringField (js "name") message with Some n => n | None => [] end.

Definition contentOf (message : JsValue) : jsstring :=
  match stringField (js "content") message with Some c => c | None => [] end.

(** An entry the text form can carry: [name] and [content] are strings, the
    trimmed name is a non-empty run of label characters, and the trimmed
    content is non-empty and holds no blank line. *)
Definition transcribable (message : JsValue) : bool :=
  match stringField (js "name") message, stringField (js "content") message with
  | Some n, Some c =>
      negb (jsstring_eqb (trim n) []) && forallb isLabelChar (trim n)
      && negb (jsstring_eqb (trim c) []) && negb (hasBlankLine (trim c))
  | _, _ => false
  end.

(** The message the round trip gives back for an entry: name and content
    trimmed, the role decided again from the trimmed name. *)
Definition normalise (toUpperCase : jsstring -> jsstring) (message : JsValue)
  : Message :=
  mkMessage
    (roleFor toUpperCase (js "MACHINA RATIOCINATRIX") (trim (nameOf message)))
    (trim (nameOf message)) (trim (contentOf message)).

(** A block of platoText as the spec describes it, [Label: content] and a
    blank line. *)
Definition blockText (block : jsstring * jsstring) : jsstring :=
  fst block ++ js ": " ++ snd block ++ [LF; LF].

(** A block whose text the pattern reads back as it is: the label is a
    non-empty run of label characters, the content is non-empty, has no
    white space at either end and holds no blank line. *)
Definition wellFormedBlock (block : jsstring * jsstring) : bool :=
  negb (jsstring_eqb (fst block) []) && forallb isLabelChar (fst block)
  && negb (jsstring_eqb (snd block) [])
  && jsstring_eqb (trim (snd block)) (snd block)
  && negb (hasBlankLine (snd block)).

(** The block [CmjToPlatoText] writes for an entry. *)
Definition fieldsOf (message : JsValue) : jsstring * jsstring :=
  (trim (nameOf message), trim (contentOf message)).

(** What C1 asks of the entries: [name] and [content] are strings, and the
    trimmed name, upper-cased, is neither sentinel. *)
Definition statedPremise (toUpperCase : jsstring -> jsstring)
    (message : JsValue) : bool :=
  match stringField (js "name") message, stringField (js "content") message with
  | Some n, Some _ =>
      negb (jsstring_eqb (toUpperCase (trim n)) (js "INSTRUCTIONS"))
      && negb (jsstring_eqb (toUpperCase (trim n)) (js "MACHINA RATIOCINATRIX"))
  | _, _ => false
  end.

(** [platoTextToCmj(CmjToPlatoText(elements))] returns the entries
    normalised, one message per entry, in order. *)
Definition RoundTrip (toUpperCase : jsstring -> jsstring)
    (elements : list JsValue) (console : Console) : Prop :=
  (text <- returned (CmjToPlatoText (JsArray elements) console) ;;
   platoTextToCmj toUpperCase (JsString text))
  = Normal (map (normalise toUpperCase) elements).

Definition alice : JsValue :=
  JsObject [(js "role", JsString (js "user"));
            (js "name", JsString (js " Alice "));
            (js "content", JsString (js "Hi!" ++ [LF] ++ js "How are you? "))].

(** *** Where the round trip as C1 states it fails *)

Definition drBob : JsValue :=
  JsObject [(js "name", JsString (js "Dr. Bob")); (js "content", JsString (js "Hello"))].

Definition bobSilent : JsValue :=
  JsObject [(js "name", JsString (js "Bob")); (js "content", JsString [])].

Definition al : JsValue :=
  JsObject [(js "name", JsString (js "Al")); (js "content", JsString (js "x"))].

Definition nameless : JsValue :=
  JsObject [(js "name", JsString (js " ")); (js "content", JsString (js "x"))].

Definition bobTwoParagraphs : JsValue :=
  JsObject [(js "name", JsString (js "Bob"));
            (js "content", JsString (js "Hi" ++ [LF; LF] ++ js "Bye"))].

(** The names and contents of a returned array, roles left out. *)
Definition namesAndContents (c : Completion (list Message))
  : option (list (jsstring * jsstring)) :=
  match c with
  | Normal messages => Some (map (fun m => (name m, content m)) messages)
  | _ => None
  end.

(** ** The scenario of the spec *)

Definition scenarioText : jsstring :=
  js "MACHINA RATIOCINATRIX: Hello there." ++ [LF; LF]
    ++ js "INSTRUCTIONS: Be concise." ++ [LF; LF]
    ++ js "Alice: Hi!" ++ [LF; LF].

(** ** Paragraphs and escaping *)

(** A global replace of one code unit by a string. *)
Definition substitute (c : codeunit) (repl : jsstring) (s : jsstring) : jsstring :=
  flat_map (fun x => if N.eqb c x then repl else [x]) s.

(** Escaping as the spec words it: [<] becomes [&lt;], [>] becomes [&gt;],
    every other code unit stays. *)
Definition escapeUnit (c : codeunit) : jsstring :=
  if N.eqb c 60%N then js "&lt;" else if N.eqb c 62%N then js "&gt;" else [c].

Definition escapeHtml (s : jsstring) : jsstring := flat_map escapeUnit s.

(** The paragraph written for a block, with its newline. *)
Definition renderBlock (block : jsstring * jsstring) : jsstring :=
  paragraphOpen ++ trim (fst block) ++ js "</span> "
    ++ escapeHtml (trim (snd block)) ++ js "</p>" ++ [LF].

Definition bobBlocks : list (jsstring * jsstring) :=
  [(js "Bob", js "Hi <there>"); (js "Dr Who", js "a > b" ++ [LF] ++ js "& so on")].

(** ** The utterance of a dialogue paragraph *)

(** The utterance both markup functions compute from the text of the
    speaker label and the text of the paragraph. *)
Definition utteranceOf (labelText paragraphText : jsstring) : jsstring :=
  trim (replaceRegExp colonPattern false []
          (replaceString labelText [] paragraphText)).

(** The utterance as C4 words it: after the label is taken out, a colon is
    removed, with the white space after it, only when it leads. *)
Definition stripLeadingColon (s : jsstring) : jsstring :=
  match s with
  | c :: t => if N.eqb c 58%N then dropWhile isWhiteSpace t else s
  | [] => []
  end.

Definition utteranceAsStated (labelText paragraphText : jsstring) : jsstring :=
  trim (stripLeadingColon (replaceString labelText [] paragraphText)).

(** ** Further vocabulary: how the five functions compose *)

(** The paragraph [platoTextToPlatoHtml] writes for the block behind a
    message, with its newline. *)
Definition messageParagraph (m : Message) : jsstring :=
  paragraphOpen ++ name m ++ js "</span> "
    ++ escapeHtml (content m) ++ js "</p>" ++ [LF].

(** The message [platoHtmlToCmj] pushes for a dialogue paragraph of the
    document [doc], if it has a speaker label. *)
Definition paragraphMessage (toUpperCase : jsstring -> jsstring)
    (identity : jsstring) (doc : Document) (p : Node) : option Message :=
  match querySelector doc p (js "span") (js "speaker") with
  | None => None
  | Some span =>
      Some (mkMessage
              (roleFor toUpperCase identity (trim (textContent span)))
              (trim (textContent span))
              (utteranceOf (textContent span) (textContent p)))
  end.

Definition optionList {A : Type} (o : option A) : list A :=
  match o with Some x => [x] | None => [] end.

(** A well-formed block whose label has no white space at either end: the
    form [CmjToPlatoText] writes. *)
Definition canonicalBlock (block : jsstring * jsstring) : bool :=
  wellFormedBlock block && jsstring_eqb (trim (fst block)) (fst block).

(** Neither [<] nor [>] occurs. *)
Definition noAngle (s : jsstring) : bool :=
  forallb (fun c => negb (N.eqb c 60%N) && negb (N.eqb c 62%N)) s.

(** No code unit of the label alphabet occurs: blank lines, punctuation. *)
Definition noLabelChar (s : jsstring) : bool :=
  forallb (fun c => negb (isLabelChar c)) s.

(** No colon occurs. *)
Definition noColon (s : jsstring) : bool :=
  negb (existsb (N.eqb 58%N) s).

(** A paragraph with its fixed markup around a speaker part and an utterance
    part. *)
Definition paragraphOf (parts : jsstring * jsstring) : jsstring :=
  paragraphOpen ++ fst parts ++ js "</span> " ++ snd parts ++ js "</p>" ++ [LF].

(** A block preceded by text that is not part of any block. *)
Definition segmentText (segment : jsstring * (jsstring * jsstring)) : jsstring :=
  fst segment ++ blockText (snd segment).

(** The tree of the paragraph [platoTextToPlatoHtml] writes for a block: the
    speaker span holding the label, then a space and the content as text. *)
Definition writtenParagraph (block : jsstring * jsstring) : Node :=
  Element (js "p") [js "dialogue"]
    [Element (js "span") [js "speaker"] [Text (fst block)];
     Text (32%N :: snd block)].

Definition writtenBlocks : list (jsstring * jsstring) :=
  [(js "Bob", js "Hi there"); (js " Alice ", js "Fine, thanks ")].

(** Two paragraphs on two lines, and their tree. *)
Definition writtenMarkup : jsstring :=
  paragraphOpen ++ js "Bob</span> Hi there</p>" ++ [LF]
    ++ paragraphOpen ++ js " Alice </span> Fine, thanks </p>".

Definition writtenDocument : Document :=
  mkDocument Quirks
             [Element (js "html") []
                [Element (js "head") [] [];
                 Element (js "body") []
                   [writtenParagraph (js "Bob", js "Hi there"); Text [LF];
                    writtenParagraph (js " Alice ", js "Fine, thanks ")]]].

Definition junkSegments : list (jsstring * (jsstring * jsstring)) :=
  [([LF; LF] ++ js "...", (js "Bob", js "Hi"));
   ([LF] ++ js "***" ++ [LF], (js "Al", js "x: y"))].

(** * Proofs *)

(** ** Facts about strings *)

Lemma jsstring_eqb_spec (a b : jsstring) : reflect (a = b) (jsstring_eqb a b).
Proof.
  revert b; induction a as [|x a IH]; intros [|y b]; simpl;
    try (constructor; congruence).
  destruct (N.eqb_spec x y) as [->|Hxy]; simpl.
  - destruct (IH b) as [->|Hab]; constructor; congruence.
  - constructor; congruence.
Qed.

Lemma jsstring_eqb_eq (a b : jsstring) : jsstring_eqb a b = true <-> a = b.
Proof. destruct (jsstring_eqb_spec a b); split; congruence. Qed.

Lemma jsstring_eqb_refl (a : jsstring) : jsstring_eqb a a = true.
Proof. apply jsstring_eqb_eq; reflexivity. Qed.

Lemma jsstring_eqb_neq (a b : jsstring) : jsstring_eqb a b = false <-> a <> b.
Proof. destruct (jsstring_eqb_spec a b); split; congruence. Qed.

Lemma dropWhile_all (p : codeunit -> bool) (s : jsstring) :
  forallb p s = true -> dropWhile p s = [].
Proof.
  induction s as [|c s IH]; simpl; [reflexivity|].
  destruct (p c); simpl; [exact IH | discriminate].
Qed.

Lemma dropWhile_nil_inv (p : codeunit -> bool) (s : jsstring) :
  dropWhile p s = [] -> forallb p s = true.
Proof.
  induction s as [|c s IH]; simpl; [reflexivity|].
  destruct (p c); simpl; [exact IH | discriminate].
Qed.

Lemma dropWhile_head (p : codeunit -> bool) (s : jsstring) c t :
  dropWhile p s = c :: t -> p c = false.
Proof.
  induction s as [|d s IH]; simpl; [discriminate|].
  destruct (p d) eqn:Hd; [exact IH|].
  intros [= -> _]; exact Hd.
Qed.

Lemma dropWhile_fixed (p : codeunit -> bool) c t :
  p c = false -> dropWhile p (c :: t) = c :: t.
Proof. intros H; simpl; now rewrite H. Qed.

Lemma dropWhile_idem (p : codeunit -> bool) (s : jsstring) :
  dropWhile p (dropWhile p s) = dropWhile p s.
Proof.
  destruct (dropWhile p s) as [|c t] eqn:E; [reflexivity|].
  apply dropWhile_fixed, (dropWhile_head _ _ _ _ E).
Qed.

(** Dropping a prefix satisfying [p] from [u ++ [c]] with [p c = false]
    leaves a string that still ends in [c]. *)
Lemma dropWhile_snoc (p : codeunit -> bool) (u : jsstring) c :
  p c = false -> exists v, dropWhile p (u ++ [c]) = v ++ [c].
Proof.
  intros Hc; induction u as [|d u IH]; simpl.
  - rewrite Hc; now exists [].
  - destruct (p d); [exact IH|]. now exists (d :: u).
Qed.

Lemma trimEnd_snoc (s : jsstring) c :
  isWhiteSpace c = false -> trimEnd (s ++ [c]) = s ++ [c].
Proof.
  intros Hc; unfold trimEnd.
  rewrite rev_app_distr; simpl; rewrite Hc; simpl.
  now rewrite rev_involutive.
Qed.

(** A trimmed string is empty, or starts and ends with a code unit that is
    not white space. *)
Lemma trim_shape (s : jsstring) :
  trim s = [] \/
  exists a u b v, trim s = a :: u /\ isWhiteSpace a = false
               /\ trim s = v ++ [b] /\ isWhiteSpace b = false.
Proof.
  unfold trim, trimStart.
  destruct (dropWhile isWhiteSpace s) as [|a t] eqn:Hs; [now left|].
  pose proof (dropWhile_head _ _ _ _ Hs) as Ha.
  unfold trimEnd.
  destruct (dropWhile isWhiteSpace (rev (a :: t))) as [|b w] eqn:Hr.
  - apply dropWhile_nil_inv in Hr. rewrite forallb_forall in Hr.
    specialize (Hr a). rewrite <- in_rev in Hr.
    rewrite Hr in Ha by now left. discriminate.
  - right. pose proof (dropWhile_head _ _ _ _ Hr) as Hb.
    simpl in Hr.
    destruct (dropWhile_snoc isWhiteSpace (rev t) a Ha) as [v Hv].
    rewrite Hv in Hr.
    assert (Hrev : rev (b :: w) = a :: rev v).
    { rewrite <- Hr, rev_app_distr. reflexivity. }
    exists a, (rev v), b, (rev w). repeat split; auto.
Qed.

Lemma trim_fixed (s : jsstring) a u b v :
  s = a :: u -> isWhiteSpace a = false ->
  s = v ++ [b] -> isWhiteSpace b = false -> trim s = s.
Proof.
  intros Hs Ha Hv Hb. unfold trim, trimStart.
  rewrite Hs at 1. rewrite (dropWhile_fixed _ _ _ Ha), <- Hs, Hv.
  now apply trimEnd_snoc.
Qed.

Lemma trim_idem (s : jsstring) : trim (trim s) = trim s.
Proof.
  destruct (trim_shape s) as [E | (a & u & b & v & E1 & Ha & E2 & Hb)].
  - rewrite E; reflexivity.
  - eapply trim_fixed; eauto.
Qed.

Lemma trim_whitespace (s : jsstring) :
  forallb isWhiteSpace s = true -> trim s = [].
Proof.
  intros H; unfold trim, trimStart. now rewrite (dropWhile_all _ _ H).
Qed.

Lemma trim_nil_inv (s : jsstring) :
  trim s = [] -> forallb isWhiteSpace s = true.
Proof.
  unfold trim, trimStart, trimEnd; intros H.
  assert (Hr : dropWhile isWhiteSpace (rev (dropWhile isWhiteSpace s)) = []).
  { rewrite <- (rev_involutive (dropWhile _ (rev _))), H; reflexivity. }
  apply dropWhile_nil_inv in Hr.
  destruct (dropWhile isWhiteSpace s) as [|a t] eqn:Hs.
  - now apply dropWhile_nil_inv.
  - pose proof (dropWhile_head _ _ _ _ Hs) as Ha.
    rewrite forallb_forall in Hr. specialize (Hr a).
    rewrite <- in_rev in Hr. rewrite Hr in Ha by now left. discriminate.
Qed.

(** ** The matcher is sound *)

Lemma repeatMatcher_inv p greedy s : forall min k res,
  repeatMatcher p greedy min s k = Some res ->
  exists t s', s = t ++ s' /\ min <= length t /\ forallb p t = true
               /\ k s' = Some res.
Proof.
  induction s as [|c s IH]; intros min k res H.
  - destruct min as [|min]; simpl in H; [|discriminate].
    exists [], []. repeat split; auto.
    destruct greedy; [exact H|]. destruct (k []); [exact H | discriminate].
  - assert (Hstep : p c = true ->
              forall m, repeatMatcher p greedy m s k = Some res ->
              exists t s', c :: s = t ++ s' /\ S m <= length t
                           /\ forallb p t = true /\ k s' = Some res).
    { intros Hc m Hm. destruct (IH _ _ _ Hm) as (t & s' & -> & Hlen & Hp & Hk).
      exists (c :: t), s'. simpl. rewrite Hc. repeat split; auto. lia. }
    assert (Hstop : k (c :: s) = Some res ->
              exists t s', c :: s = t ++ s' /\ 0 <= length t
                           /\ forallb p t = true /\ k s' = Some res).
    { intros Hk. exists [], (c :: s). repeat split; auto. }
    destruct min as [|min]; simpl in H.
    + destruct greedy.
      * destruct (p c) eqn:Hc.
        -- destruct (repeatMatcher p true 0 s k) as [r|] eqn:Hm.
           ++ injection H as <-.
              destruct (Hstep eq_refl 0 Hm) as (t & s' & E & Hl & Hp & Hk).
              exists t, s'. repeat split; auto. lia.
           ++ auto.
        -- auto.
      * destruct (k (c :: s)) as [r|] eqn:Hk.
        -- injection H as <-. auto.
        -- destruct (p c) eqn:Hc; [|discriminate].
           destruct (Hstep eq_refl 0 H) as (t & s' & E & Hl & Hp & Hk').
           exists t, s'. repeat split; auto. lia.
    + destruct (p c) eqn:Hc; [|discriminate]. auto.
Qed.

(** The matcher is sound: a result comes from the continuation, called on
    a state the pattern leads to. *)
Lemma matcher_sound r : forall x k res,
  matcher r x k = Some res -> exists y, Matches r x y /\ k y = Some res.
Proof.
  induction r as [p | min greedy p | r1 IH1 r2 IH2 | n r IH];
    intros [s cs] k res H; simpl in H.
  - destruct s as [|c s]; [discriminate|].
    destruct (p c) eqn:Hc; [|discriminate].
    eexists; split; [now constructor | exact H].
  - apply repeatMatcher_inv in H.
    destruct H as (t & s' & -> & Hlen & Hp & Hk).
    eexists; split; [now constructor | exact Hk].
  - apply IH1 in H. destruct H as (y & Hy & H).
    apply IH2 in H. destruct H as (z & Hz & H).
    exists z; split; [econstructor; eauto | exact H].
  - apply IH in H. destruct H as (y & Hy & H).
    eexists; split; [apply MatchesGroup; exact Hy | exact H].
Qed.

(** A match consumes a prefix of the text. *)
Lemma Matches_consumes r x y :
  Matches r x y -> exists t, rest x = t ++ rest y.
Proof.
  induction 1 as [p c s cs Hc | min greedy p t s cs Hl Hp
                 | r1 r2 x y z _ [t1 E1] _ [t2 E2] | n r x y _ [t E]]; simpl.
  - now exists [c].
  - now exists t.
  - exists (t1 ++ t2). now rewrite E1, E2, app_assoc.
  - now exists t.
Qed.

Lemma firstn_consumed (t s : jsstring) :
  firstn (length (t ++ s) - length s) (t ++ s) = t.
Proof.
  rewrite length_app, Nat.add_sub, firstn_app, Nat.sub_diag, firstn_all.
  simpl. apply app_nil_r.
Qed.

(** The shape of every match of the block pattern: a label, a colon, white
    space, a body and a blank line; the two groups hold the label and the
    body. *)
Lemma blockPattern_inv s y :
  matchAt blockPattern s = Some y ->
  exists label ws body,
    s = label ++ 58%N :: ws ++ body ++ LF :: LF :: rest y
    /\ label <> [] /\ forallb isLabelChar label = true
    /\ forallb isWhiteSpace ws = true
    /\ caps y = [(2, body); (1, label)].
Proof.
  unfold matchAt; intros H.
  apply matcher_sound in H. destruct H as (z & Hm & [= ->]).
  unfold blockPattern, Chr in Hm.
  repeat match goal with
         | H : Matches (Seq _ _) _ _ |- _ => inversion H; subst; clear H
         | H : Matches (Group _ _) _ _ |- _ => inversion H; subst; clear H
         | H : Matches (Repeat _ _ _) _ _ |- _ => inversion H; subst; clear H
         | H : Matches (Class _) _ _ |- _ => inversion H; subst; clear H
         end.
  repeat match goal with
         | H : N.eqb _ _ = true |- _ => apply N.eqb_eq in H; subst
         end.
  cbn [rest caps].
  rewrite (firstn_consumed t0), (firstn_consumed t).
  exists t, t1, t0. repeat split; auto.
  intros ->. simpl in *. lia.
Qed.

Lemma searchFrom_inv r s : forall i j y,
  searchFrom r i s = Some (j, y) ->
  exists pre s', s = pre ++ s' /\ j = i + length pre /\ matchAt r s' = Some y.
Proof.
  induction s as [|c s IH]; intros i j y H; simpl in H.
  - destruct (matchAt r []) eqn:E; [|discriminate].
    injection H as <- <-. exists [], []. rewrite Nat.add_0_r. auto.
  - destruct (matchAt r (c :: s)) eqn:E.
    + injection H as <- <-. exists [], (c :: s). rewrite Nat.add_0_r. auto.
    + apply IH in H. destruct H as (pre & s' & -> & -> & H).
      exists (c :: pre), s'. simpl. repeat split; auto; lia.
Qed.

(** A successful [exec] of the block pattern: both groups took part, the
    label is a non-empty run of label characters, and [lastIndex] moved
    forward, staying within the input. *)
Lemma exec_blockPattern {i str re' m} :
  exec (mkRegExp blockPattern i) str = (re', Some m) ->
  exists label body j,
    group m 1 = JsString label /\ group m 2 = JsString body
    /\ label <> [] /\ forallb isLabelChar label = true
    /\ re' = mkRegExp blockPattern j /\ i < j <= length str.
Proof.
  unfold exec; simpl.
  destruct (Nat.ltb_spec (length str) i) as [Hlt|Hle]; [discriminate|].
  destruct (searchFrom blockPattern i (skipn i str)) as [[j y]|] eqn:Hs;
    [|discriminate].
  intros [= <- <-].
  apply searchFrom_inv in Hs. destruct Hs as (pre & s' & Hsk & -> & Hm).
  apply blockPattern_inv in Hm.
  destruct Hm as (label & ws & body & -> & Hne & Hlab & _ & Hcaps).
  exists label, body, (length str - length (rest y)).
  unfold group; simpl. rewrite Hcaps; simpl.
  repeat split; auto.
  - apply (f_equal (@length _)) in Hsk. rewrite length_skipn in Hsk.
    rewrite !length_app in Hsk. simpl in Hsk. rewrite !length_app in Hsk.
    simpl in Hsk. destruct label; [congruence|]. simpl in Hsk. lia.
  - lia.
Qed.

(** ** The blocks of a text *)

(** With more fuel than text left, the loop of [platoTextToCmj] ends, having
    pushed one message per block. *)
Lemma platoTextToCmj_loop_blocks toUpperCase platoText : forall fuel i messages,
  length platoText - i < fuel ->
  platoTextToCmj_loop toUpperCase fuel platoText (mkRegExp blockPattern i)
    messages
  = Normal (messages ++ map (blockMessage toUpperCase)
              (textBlocks fuel platoText (mkRegExp blockPattern i))).
Proof.
  induction fuel as [|fuel IH]; intros i messages Hfuel; [lia|].
  simpl.
  destruct (exec (mkRegExp blockPattern i) platoText) as [re' [m|]] eqn:He.
  - destruct (exec_blockPattern He)
      as (label & body & j & -> & -> & _ & _ & -> & Hj).
    simpl. rewrite IH by lia.
    now rewrite <- app_assoc.
  - now rewrite app_nil_r.
Qed.

(** Fuel beyond the text left does not change the blocks. *)
Lemma textBlocks_fuel platoText : forall fuel fuel' i,
  length platoText - i < fuel -> length platoText - i < fuel' ->
  textBlocks fuel platoText (mkRegExp blockPattern i)
  = textBlocks fuel' platoText (mkRegExp blockPattern i).
Proof.
  induction fuel as [|fuel IH]; intros [|fuel'] i H H'; try lia.
  simpl.
  destruct (exec (mkRegExp blockPattern i) platoText) as [re' [m|]] eqn:He;
    [|reflexivity].
  destruct (exec_blockPattern He) as (_ & _ & j & _ & _ & _ & _ & -> & Hj).
  f_equal. apply IH; lia.
Qed.

(** Every block has a non-empty label made of label characters. *)
Lemma textBlocks_labels platoText : forall fuel i,
  Forall (fun b => fst b <> [] /\ forallb isLabelChar (fst b) = true)
    (textBlocks fuel platoText (mkRegExp blockPattern i)).
Proof.
  induction fuel as [|fuel IH]; intros i; simpl; [constructor|].
  destruct (exec (mkRegExp blockPattern i) platoText) as [re' [m|]] eqn:He;
    [|constructor].
  destruct (exec_blockPattern He)
    as (label & body & j & -> & -> & Hne & Hlab & -> & Hj).
  constructor; [simpl; auto | apply IH].
Qed.

(** ** Shared facts about the five functions *)

Lemma Classified_mk toUpperCase identity s u :
  Classified toUpperCase identity
    (mkMessage (roleFor toUpperCase identity (trim s)) (trim s) (trim u)).
Proof. unfold Classified; simpl. now rewrite !trim_idem. Qed.

Lemma fold_left_Forall {A} (P : Message -> Prop)
    (f : list Message -> A -> list Message) :
  (forall acc x, Forall P acc -> Forall P (f acc x)) ->
  forall l acc, Forall P acc -> Forall P (fold_left f l acc).
Proof.
  intros Hf; induction l as [|x l IH]; intros acc Hacc; simpl; auto.
Qed.

Lemma platoHtmlToCmj_each_Classified toUpperCase identity doc messages p :
  Forall (Classified toUpperCase identity) messages ->
  Forall (Classified toUpperCase identity)
    (platoHtmlToCmj_each toUpperCase identity doc messages p).
Proof.
  intros H. unfold platoHtmlToCmj_each.
  destruct (querySelector doc p (js "span") (js "speaker")) as [span|];
    [|exact H].
  apply Forall_app; split; [exact H|].
  constructor; [|constructor]. apply Classified_mk.
Qed.

Lemma guard_cases v :
  (negb (ToBoolean v) || negb (jsstring_eqb (typeof v) (js "string")) = true
   /\ (v = JsString [] \/ typeof v <> js "string"))
  \/ (negb (ToBoolean v) || negb (jsstring_eqb (typeof v) (js "string")) = false
      /\ exists s, v = JsString s /\ s <> []).
Proof.
  destruct v as [| | b | n | s | l | ps];
    try (left; split;
         [apply orb_true_iff; right; reflexivity | right; discriminate]).
  destruct s as [|c s].
  - left; split; [reflexivity | now left].
  - right; split; [reflexivity | eexists; split; [reflexivity | discriminate]].
Qed.

Lemma platoHtmlToCmj_Classified toUpperCase parseFromString identity v :
  producesAll (Classified toUpperCase identity) v
    (platoHtmlToCmj toUpperCase parseFromString identity v).
Proof.
  unfold platoHtmlToCmj.
  destruct (guard_cases v) as [[-> Hv] | [-> _]]; simpl; [exact Hv|].
  apply fold_left_Forall; [|constructor].
  intros acc p. apply platoHtmlToCmj_each_Classified.
Qed.

Lemma platoTextToCmj_Classified toUpperCase v :
  producesAll (Classified toUpperCase MACHINA) v (platoTextToCmj toUpperCase v).
Proof.
  unfold platoTextToCmj.
  destruct (guard_cases v) as [[-> Hv] | [-> (s & -> & _)]]; simpl stringData;
    cbv iota; [exact Hv|].
  rewrite platoTextToCmj_loop_blocks by lia. simpl.
  apply Forall_map, Forall_forall. intros [l b] _. apply Classified_mk.
Qed.

Lemma producesAll_impl (P Q : Message -> Prop) v c :
  (forall m, P m -> Q m) -> producesAll P v c -> producesAll Q v c.
Proof.
  intros HPQ. destruct c; simpl; auto.
  intros H. eapply Forall_impl; eauto.
Qed.

(** What the two CMJ producers return, in one piece: a message for every
    dialogue paragraph with a speaker label, a message for every block. *)
Lemma platoHtmlToCmj_fold toUpperCase identity doc paragraphs :
  forall messages,
  fold_left (platoHtmlToCmj_each toUpperCase identity doc) paragraphs messages
  = messages
    ++ flat_map (fun p =>
                   optionList (paragraphMessage toUpperCase identity doc p))
         paragraphs.
Proof.
  induction paragraphs as [|p ps IH]; intros messages; cbn [fold_left flat_map].
  - now rewrite app_nil_r.
  - rewrite IH. unfold platoHtmlToCmj_each, paragraphMessage.
    destruct (querySelector doc p (js "span") (js "speaker")) as [span|];
      cbn [optionList app].
    + now rewrite <- app_assoc.
    + reflexivity.
Qed.

Lemma platoTextToCmj_blocks toUpperCase s :
  s <> [] ->
  platoTextToCmj toUpperCase (JsString s)
  = Normal (map (blockMessage toUpperCase) (blocksOf s)).
Proof.
  intros Hs. unfold platoTextToCmj, blocksOf.
  destruct s as [|c s]; [congruence|].
  cbn [ToBoolean jsstring_eqb negb typeof stringData].
  change (jsstring_eqb (js "string") (js "string")) with true.
  cbn [negb orb].
  now rewrite platoTextToCmj_loop_blocks by lia.
Qed.

(** ** Role classification *)

Lemma roleFor_rule toUpperCase identity label :
  RoleRule toUpperCase identity label (roleFor toUpperCase identity label).
Proof.
  unfold RoleRule, roleFor.
  destruct (jsstring_eqb_spec (toUpperCase label) identity) as [Ha|Ha];
    [|destruct (jsstring_eqb_spec (toUpperCase label) (js "INSTRUCTIONS"))
        as [Hs|Hs]];
    repeat split; intros; try discriminate; try tauto; try congruence.
Qed.

(** The rule leaves one role to a label. *)
Lemma RoleRule_functional toUpperCase identity label r1 r2 :
  RoleRule toUpperCase identity label r1 ->
  RoleRule toUpperCase identity label r2 -> r1 = r2.
Proof.
  intros (Ha1 & Hs1 & Hu1) (Ha2 & Hs2 & Hu2).
  destruct (jsstring_eqb_spec (toUpperCase label) identity) as [Ha|Ha].
  - transitivity (js "assistant"); [now apply Ha1 | symmetry; now apply Ha2].
  - destruct (jsstring_eqb_spec (toUpperCase label) (js "INSTRUCTIONS"))
      as [Hs|Hs].
    + transitivity (js "system");
        [now apply Hs1 | symmetry; now apply Hs2].
    + transitivity (js "user"); [now apply Hu1 | symmetry; now apply Hu2].
Qed.

(** The comparison ignores case, and the name is kept as written. *)
Example platoTextToCmj_ignores_case :
  platoTextToCmj basicLatinUpper
    (JsString (js "machina Ratiocinatrix: a" ++ [LF; LF]
               ++ js "Instructions: b" ++ [LF; LF]))
  = Normal [mkMessage (js "assistant") (js "machina Ratiocinatrix") (js "a");
            mkMessage (js "system") (js "Instructions") (js "b")].
Proof. vm_compute. reflexivity. Qed.

(** The labels and the messages of the markup with the three roles: the
    paragraph without a speaker label has neither. *)
Example platoHtmlToCmj_roles :
  htmlLabels rolesDocument
  = [js "Machina Ratiocinatrix"; js "instructions"; js "Alice"]
  /\ platoHtmlToCmj basicLatinUpper (fun _ => rolesDocument) MACHINA
       (JsString rolesMarkup)
     = Normal [mkMessage (js "assistant") (js "Machina Ratiocinatrix")
                 (js "Hello there.");
               mkMessage (js "system") (js "instructions") (js "Be concise.");
               mkMessage (js "user") (js "Alice") (js "Hi!")].
Proof. split; vm_compute; reflexivity. Qed.

(** A paragraph whose class names are written with capitals is read in a
    quirks-mode document, the document of markup without a doctype, and is
    passed over after [<!DOCTYPE html>]. *)
Example class_names_in_quirks_mode :
  platoHtmlToCmj basicLatinUpper (fun _ => capitalsDocument) MACHINA
    (JsString capitalsMarkup)
  = Normal [mkMessage (js "user") (js "Bob") (js "Hi there");
            mkMessage (js "user") (js "Al") (js "Yo")]
  /\ platoHtmlToPlatoText (fun _ => capitalsDocument) (JsString capitalsMarkup)
     = Normal (js "Bob: Hi there" ++ [LF; LF] ++ js "Al: Yo" ++ [LF; LF])
  /\ platoHtmlToCmj basicLatinUpper (fun _ => strictDocument) MACHINA
       (JsString (js "<!DOCTYPE html>" ++ capitalsMarkup))
     = Normal [mkMessage (js "user") (js "Bob") (js "Hi there")]
  /\ platoHtmlToPlatoText (fun _ => strictDocument)
       (JsString (js "<!DOCTYPE html>" ++ capitalsMarkup))
     = Normal (js "Bob: Hi there" ++ [LF; LF]).
Proof. repeat split; vm_compute; reflexivity. Qed.

(** C3. For markup and for text that are not empty, each producer returns
    one message for every speaker label it extracts, in the order of
    extraction (for [platoHtmlToCmj] the trimmed text of the speaker span of
    every dialogue paragraph that has one, for [platoTextToCmj] the trimmed
    first group of every match of the block pattern). The message carries
    the label as its name, and its role is "assistant" exactly when the
    upper-cased label is the assistant identity (the configured machine name
    for [platoHtmlToCmj], the literal MACHINA RATIOCINATRIX for
    [platoTextToCmj]), "system" exactly when the upper-cased label is
    INSTRUCTIONS and not the assistant identity, and "user" exactly when it
    is neither: the label enters the comparison upper-cased. *)
Theorem role_classification
    (toUpperCase : jsstring -> jsstring) (parseFromString : jsstring -> Document)
    (machineConfig_name : jsstring) (platoHtml platoText : jsstring) :
  platoHtml <> [] -> platoText <> [] ->
  (exists messages,
      platoHtmlToCmj toUpperCase parseFromString machineConfig_name
        (JsString platoHtml) = Normal messages
      /\ Forall2 (Labelled toUpperCase machineConfig_name)
           (htmlLabels (parseFromString platoHtml)) messages)
  /\ (exists messages,
        platoTextToCmj toUpperCase (JsString platoText) = Normal messages
        /\ Forall2 (Labelled toUpperCase (js "MACHINA RATIOCINATRIX"))
             (textLabels platoText) messages).
Proof.
  intros Hhtml Htext. split.
  - unfold platoHtmlToCmj.
    destruct (guard_cases (JsString platoHtml)) as [[_ [[= E] | E]] | [-> _]];
      [congruence | now elim E |].
    cbn [stringData]. eexists; split; [reflexivity|].
    rewrite platoHtmlToCmj_fold. cbn [app]. unfold htmlLabels.
    induction (querySelectorAll (parseFromString platoHtml) (js "p")
                 (js "dialogue")) as [|p ps IH];
      cbn [flat_map]; [constructor|].
    apply Forall2_app; [|exact IH].
    unfold paragraphMessage.
    destruct (querySelector (parseFromString platoHtml) p (js "span")
                (js "speaker")) as [span|]; cbn [optionList];
      constructor; [|constructor].
    split; [reflexivity | apply roleFor_rule].
  - rewrite (platoTextToCmj_blocks _ _ Htext). eexists; split; [reflexivity|].
    unfold textLabels.
    induction (blocksOf platoText) as [|b bs IH]; cbn [map]; constructor;
      [|exact IH].
    split; [reflexivity | apply roleFor_rule].
Qed.

(** Markup and text with a label for each role and, in the markup, a
    dialogue paragraph without speaker label. *)
Lemma role_classification_witness :
  rolesMarkup <> [] /\ rolesText <> []
  /\ (exists messages,
        platoHtmlToCmj basicLatinUpper (fun _ => rolesDocument) MACHINA
          (JsString rolesMarkup) = Normal messages
        /\ Forall2 (Labelled basicLatinUpper MACHINA)
             (htmlLabels rolesDocument) messages)
  /\ (exists messages,
        platoTextToCmj basicLatinUpper (JsString rolesText) = Normal messages
        /\ Forall2 (Labelled basicLatinUpper (js "MACHINA RATIOCINATRIX"))
             (textLabels rolesText) messages).
Proof.
  assert (Hhtml : rolesMarkup <> []) by discriminate.
  assert (Htext : rolesText <> []) by discriminate.
  split; [exact Hhtml|]. split; [exact Htext|].
  exact (role_classification basicLatinUpper (fun _ => rolesDocument) MACHINA
           rolesMarkup rolesText Hhtml Htext).
Defined.

(** ** The invariant of CMJ output *)

Lemma Classified_Normalised toUpperCase identity m :
  Classified toUpperCase identity m -> Normalised m /\ retrim m = m.
Proof.
  intros (Hrole & Hn & Hc). unfold Normalised, retrim.
  rewrite Hn, Hc. repeat split; auto.
  - rewrite Hrole. unfold roleFor.
    destruct (jsstring_eqb _ identity); [simpl; tauto|].
    destruct (jsstring_eqb _ _); simpl; tauto.
  - now destruct m.
Qed.

(** C10. Every message of the array [platoHtmlToCmj] or [platoTextToCmj]
    returns has role "user", "assistant" or "system" and a name and a content
    that equal their own trim, so trimming a returned message again changes
    nothing. (Both functions end: they return such an array, or throw on an
    argument that is not a non-empty string.) *)
Theorem cmj_output_normalised
    (toUpperCase : jsstring -> jsstring) (parseFromString : jsstring -> Document)
    (machineConfig_name : jsstring) (v : JsValue) :
  producesAll (fun m => Normalised m /\ retrim m = m) v
    (platoHtmlToCmj toUpperCase parseFromString machineConfig_name v)
  /\ producesAll (fun m => Normalised m /\ retrim m = m) v
       (platoTextToCmj toUpperCase v).
Proof.
  split.
  - eapply producesAll_impl; [|apply platoHtmlToCmj_Classified].
    apply Classified_Normalised.
  - eapply producesAll_impl; [|apply platoTextToCmj_Classified].
    apply Classified_Normalised.
Qed.

(** ** Invalid input *)

(** C6. On the empty string and on any value that is not a string,
    [platoHtmlToCmj] and [platoTextToCmj] end by throwing their
    invalid-input error: the completion carries the error and no messages,
    and it is the same whatever the parser and the host would do, neither
    being consulted. *)
Theorem invalid_input_throws
    (toUpperCase : jsstring -> jsstring) (parseFromString : jsstring -> Document)
    (machineConfig_name : jsstring) (v : JsValue) :
  v = JsString [] \/ typeof v <> js "string" ->
  platoHtmlToCmj toUpperCase parseFromString machineConfig_name v
  = Throw (Error (js "Invalid input: platoHtml must be a non-empty string"))
  /\ platoTextToCmj toUpperCase v
     = Throw (Error (js "Invalid input: platoText must be a non-empty string")).
Proof.
  intros Hv. unfold platoHtmlToCmj, platoTextToCmj.
  destruct (guard_cases v) as [[-> _] | [_ (s & -> & Hs)]]; [split; reflexivity|].
  destruct Hv as [[= ->] | Hv]; [now elim Hs | now elim Hv].
Qed.

(** The empty string, and a number in place of a string. *)
Lemma invalid_input_throws_witness :
  (platoHtmlToCmj basicLatinUpper (fun _ => noteDocument) MACHINA (JsString [])
   = Throw (Error (js "Invalid input: platoHtml must be a non-empty string"))
   /\ platoTextToCmj basicLatinUpper (JsString [])
      = Throw (Error (js "Invalid input: platoText must be a non-empty string")))
  /\ (platoHtmlToCmj basicLatinUpper (fun _ => noteDocument) MACHINA
        (JsNumber (NumFinite false 7%N 0%Z))
      = Throw (Error (js "Invalid input: platoHtml must be a non-empty string"))
      /\ platoTextToCmj basicLatinUpper (JsNumber (NumFinite false 7%N 0%Z))
         = Throw (Error (js "Invalid input: platoText must be a non-empty string"))).
Proof.
  split.
  - apply (invalid_input_throws basicLatinUpper (fun _ => noteDocument)
             MACHINA (JsString [])).
    left; reflexivity.
  - apply (invalid_input_throws basicLatinUpper (fun _ => noteDocument)
             MACHINA (JsNumber (NumFinite false 7%N 0%Z))).
    right; discriminate.
Defined.

(** ** Blank input *)

(** C7. On a string that is empty or holds white space only,
    [platoHtmlToPlatoText] and [platoTextToPlatoHtml] return the empty
    string; they do not throw. *)
Theorem blank_input_returns_empty
    (parseFromString : jsstring -> Document) (s : jsstring) :
  forallb isWhiteSpace s = true ->
  platoHtmlToPlatoText parseFromString (JsString s) = Normal []
  /\ platoTextToPlatoHtml (JsString s) = Normal [].
Proof.
  intros Hs. unfold platoHtmlToPlatoText, platoTextToPlatoHtml. simpl.
  rewrite (trim_whitespace _ Hs). split; reflexivity.
Qed.

(** The empty string, and a run of spaces, a tab and a line break. *)
Lemma blank_input_returns_empty_witness :
  (platoHtmlToPlatoText (fun _ => noteDocument) (JsString []) = Normal []
   /\ platoTextToPlatoHtml (JsString []) = Normal [])
  /\ (platoHtmlToPlatoText (fun _ => noteDocument)
        (JsString (js "  " ++ [9%N; LF])) = Normal []
      /\ platoTextToPlatoHtml (JsString (js "  " ++ [9%N; LF])) = Normal []).
Proof.
  split.
  - apply (blank_input_returns_empty (fun _ => noteDocument) []). reflexivity.
  - apply (blank_input_returns_empty (fun _ => noteDocument)
             (js "  " ++ [9%N; LF])). reflexivity.
Defined.

(** ** CMJ to platoText *)

Lemma CmjToPlatoText_each_spec platoText console message :
  CmjToPlatoText_each (platoText, console) message
  = Normal (platoText ++ entryText message, console ++ entryLog message).
Proof.
  unfold CmjToPlatoText_each, CmjToPlatoText_test, entryText, entryLog,
    stringField, field.
  destruct message as [| | b | n | s | l | props];
    try (simpl; rewrite ?app_nil_r; reflexivity).
  - destruct b; simpl; rewrite ?app_nil_r; reflexivity.
  - destruct (ToBoolean (JsNumber n)); simpl; rewrite ?app_nil_r; reflexivity.
  - destruct (ToBoolean (JsString s)); simpl; rewrite ?app_nil_r; reflexivity.
  - simpl.
    destruct (lookup (js "name") props) as [[| | b | n | s | l | ps]|];
      simpl; rewrite ?app_nil_r; try reflexivity.
    destruct (lookup (js "content") props) as [[| | b | n | c | l | ps]|];
      simpl; rewrite ?app_nil_r; reflexivity.
Qed.

(** A message a producer built is an entry with both fields. *)
Lemma entryText_messageValue m :
  entryText (messageValue m)
  = trim (name m) ++ js ": " ++ trim (content m) ++ [LF; LF].
Proof. reflexivity. Qed.

Lemma forEach_CmjToPlatoText_each elements : forall platoText console,
  forEach CmjToPlatoText_each elements (platoText, console)
  = Normal (platoText ++ flat_map entryText elements,
            console ++ flat_map entryLog elements).
Proof.
  induction elements as [|m elements IH]; intros platoText console;
    cbn [forEach flat_map].
  - now rewrite !app_nil_r.
  - rewrite CmjToPlatoText_each_spec. cbn [bind]. rewrite IH.
    now rewrite <- !app_assoc.
Qed.

(** C8. [CmjToPlatoText] never throws. On a value that is not an array it
    returns the empty string, with one error entry on the console. On an
    array it returns the lines [name.trim(): content.trim()], each followed
    by two newlines, of the entries whose [name] and [content] are strings,
    in the order of the array; every other entry adds nothing to the text
    and one warning to the console, and the entries after it are still
    rendered. *)
Theorem CmjToPlatoText_total (cmjMessages : JsValue) (console : Console) :
  CmjToPlatoText cmjMessages console
  = Normal
      (match cmjMessages with
       | JsArray elements =>
           (flat_map entryText elements,
            console ++ flat_map entryLog elements)
       | _ =>
           ([], console ++ [(LogError,
                  [JsString (js "Invalid input: cmjMessages must be an array.")])])
       end).
Proof.
  unfold CmjToPlatoText.
  destruct cmjMessages as [| | b | n | s | elements | props]; try reflexivity.
  simpl. apply forEach_CmjToPlatoText_each.
Qed.

(** ** The role field does not interfere *)

Lemma entryText_sameFields m m' : sameFields m m' -> entryText m = entryText m'.
Proof.
  intros [Hn Hc]. unfold entryText, stringField. now rewrite Hn, Hc.
Qed.

Lemma lookup_filter_other key other props :
  jsstring_eqb other key = false ->
  lookup key (filter (fun kv => negb (jsstring_eqb (fst kv) other)) props)
  = lookup key props.
Proof.
  intros Hne. induction props as [|[k v] props IH]; simpl; [reflexivity|].
  destruct (jsstring_eqb_spec k other) as [->|Hk]; simpl.
  - now rewrite Hne.
  - now rewrite IH.
Qed.

Lemma withRole_sameFields r m : sameFields (withRole r m) m.
Proof.
  destruct m as [| | b | n | s | l | props]; try (split; reflexivity).
  unfold sameFields, withRole, field.
  destruct r as [v|]; simpl; now rewrite !lookup_filter_other.
Qed.

Lemma returned_CmjToPlatoText elements console :
  returned (CmjToPlatoText (JsArray elements) console)
  = Normal (flat_map entryText elements).
Proof.
  unfold CmjToPlatoText; simpl.
  now rewrite forEach_CmjToPlatoText_each.
Qed.

(** C9. Two arrays of equal length whose entries agree, position by
    position, on the [name] and the [content] field make [CmjToPlatoText]
    return the same string, whatever else the entries hold and whatever the
    console held. In particular setting, replacing or deleting the [role]
    of any entries ([edit] chooses per entry) does not change the string. *)
Theorem role_noninterference :
  (forall (elements elements' : list JsValue) (console console' : Console),
      Forall2 sameFields elements elements' ->
      returned (CmjToPlatoText (JsArray elements) console)
      = returned (CmjToPlatoText (JsArray elements') console'))
  /\ (forall (edit : JsValue -> option JsValue) (elements : list JsValue)
             (console console' : Console),
         returned (CmjToPlatoText
                     (JsArray (map (fun m => withRole (edit m) m) elements))
                     console)
         = returned (CmjToPlatoText (JsArray elements) console')).
Proof.
  assert (H : forall elements elements' : list JsValue,
             Forall2 sameFields elements elements' ->
             flat_map entryText elements = flat_map entryText elements').
  { induction 1 as [|m m' l l' Hm _ IH]; simpl; [reflexivity|].
    now rewrite (entryText_sameFields _ _ Hm), IH. }
  split.
  - intros elements elements' console console' Hsame.
    rewrite !returned_CmjToPlatoText. f_equal. now apply H.
  - intros edit elements console console'.
    rewrite !returned_CmjToPlatoText. f_equal. apply H.
    induction elements as [|m l IH]; simpl; constructor; auto.
    apply withRole_sameFields.
Qed.

(** An entry with a role and the same entry without one, next to an entry
    that is skipped on both sides. *)
Lemma role_noninterference_witness :
  Forall2 sameFields [bobWithRole; JsNull] [bobWithoutRole; JsBoolean true]
  /\ returned (CmjToPlatoText (JsArray [bobWithRole; JsNull]) [])
     = returned (CmjToPlatoText (JsArray [bobWithoutRole; JsBoolean true]) []).
Proof.
  assert (H : Forall2 sameFields [bobWithRole; JsNull]
                [bobWithoutRole; JsBoolean true]).
  { repeat constructor. }
  split; [exact H|].
  exact (proj1 role_noninterference _ _ [] [] H).
Defined.

(** ** The matcher on a block it is meant for *)

(** A greedy quantifier takes the whole run [t] when the text after it does
    not continue the run and the continuation accepts there. *)
Lemma repeatMatcher_greedy_run p t s k res : forall min,
  forallb p t = true -> min <= length t ->
  match s with c :: _ => p c = false | [] => True end ->
  k s = Some res ->
  repeatMatcher p true min (t ++ s) k = Some res.
Proof.
  induction t as [|c t IH]; intros min Hp Hmin Hs Hk; simpl in *.
  - assert (min = 0) as -> by lia. simpl.
    destruct s as [|c s]; simpl in *; [exact Hk|]. now rewrite Hs.
  - apply andb_true_iff in Hp. destruct Hp as [Hc Hp]. rewrite Hc.
    destruct min as [|min].
    + now rewrite (IH 0 Hp (Nat.le_0_l _) Hs Hk).
    + apply IH; auto. lia.
Qed.

(** A lazy quantifier stops at the first place where the continuation
    accepts. *)
Lemma repeatMatcher_lazy_first p t s k res :
  forallb p t = true ->
  (forall t1 t2, t = t1 ++ t2 -> t2 <> [] -> k (t2 ++ s) = None) ->
  k s = Some res ->
  repeatMatcher p false 0 (t ++ s) k = Some res.
Proof.
  induction t as [|c t IH]; intros Hp Hfail Hk; simpl in *.
  - destruct s; simpl; now rewrite Hk.
  - apply andb_true_iff in Hp. destruct Hp as [Hc Hp].
    assert (Hhere : k (c :: t ++ s) = None)
      by (apply (Hfail [] (c :: t) eq_refl); discriminate).
    rewrite Hhere, Hc. apply IH; auto.
    intros t1 t2 -> Ht2. now apply (Hfail (c :: t1) t2).
Qed.

Lemma hasBlankLine_suffix t1 t2 :
  hasBlankLine (t1 ++ t2) = false -> hasBlankLine t2 = false.
Proof.
  induction t1 as [|c t1 IH]; simpl; [auto|].
  destruct (t1 ++ t2) eqn:E; intros H.
  - apply app_eq_nil in E. destruct E as [_ ->]. reflexivity.
  - apply orb_false_iff in H. apply IH, H.
Qed.

(** The block pattern on the text of one entry followed by anything: the
    match is the entry, the groups are its two parts. *)
Lemma blockPattern_entry label body a u v b tail :
  label <> [] -> forallb isLabelChar label = true ->
  body = a :: u -> isWhiteSpace a = false ->
  body = v ++ [b] -> isWhiteSpace b = false ->
  hasBlankLine body = false ->
  matchAt blockPattern
    (label ++ 58%N :: 32%N :: body ++ LF :: LF :: tail)
  = Some (mkState tail [(2, body); (1, label)]).
Proof.
  intros Hne Hlab Ha Hwa Hb Hwb Hblank.
  unfold matchAt, blockPattern, Chr. cbn [matcher rest caps].
  apply repeatMatcher_greedy_run; auto.
  { destruct label; [congruence | simpl; lia]. }
  rewrite N.eqb_refl.
  apply (repeatMatcher_greedy_run isWhiteSpace [32%N]
           (body ++ LF :: LF :: tail));
    [reflexivity | simpl; lia | rewrite Ha; exact Hwa |].
  apply repeatMatcher_lazy_first.
  - now apply forallb_forall.
  - intros t1 [|c t2] E Hne2; [congruence|]. cbn [app].
    destruct (N.eqb_spec LF c) as [<-|Hc]; [|reflexivity].
    destruct t2 as [|d t2].
    + rewrite Hb in E. apply app_inj_tail in E. destruct E as [_ ->].
      discriminate.
    + cbn [app]. destruct (N.eqb_spec LF d) as [<-|Hd]; [|reflexivity].
      rewrite E in Hblank. apply hasBlankLine_suffix in Hblank.
      discriminate.
  - rewrite !N.eqb_refl.
    now rewrite (firstn_consumed body), (firstn_consumed label).
Qed.

Lemma skipn_length_app (pre s : jsstring) : skipn (length pre) (pre ++ s) = s.
Proof. induction pre; simpl; auto. Qed.

(** [exec] on a text whose next block, at [lastIndex], is an entry. *)
Lemma exec_entry pre label body a u v b tail :
  label <> [] -> forallb isLabelChar label = true ->
  body = a :: u -> isWhiteSpace a = false ->
  body = v ++ [b] -> isWhiteSpace b = false ->
  hasBlankLine body = false ->
  exec (mkRegExp blockPattern (length pre))
    (pre ++ (label ++ 58%N :: 32%N :: body ++ LF :: LF :: tail))
  = (mkRegExp blockPattern
       (length (pre ++ (label ++ 58%N :: 32%N :: body ++ [LF; LF]))),
     Some (mkMatch (length pre) [(2, body); (1, label)])).
Proof.
  intros Hne Hlab Ha Hwa Hb Hwb Hblank. unfold exec. cbn [lastIndex source].
  destruct (Nat.ltb_spec (length (pre ++ (label ++ 58%N :: 32%N :: body
                                            ++ LF :: LF :: tail)))
              (length pre)) as [Hlt|_].
  { rewrite length_app in Hlt. lia. }
  rewrite skipn_length_app.
  destruct (label ++ 58%N :: 32%N :: body ++ LF :: LF :: tail) as [|c s] eqn:E.
  { destruct label; discriminate. }
  cbn [searchFrom]. rewrite <- E.
  rewrite (blockPattern_entry label body a u v b tail) by assumption.
  cbn [rest caps]. do 2 f_equal.
  rewrite !length_app. cbn [length]. rewrite !length_app. cbn [length]. lia.
Qed.

Lemma wellFormedBlock_inv block :
  wellFormedBlock block = true ->
  exists a u v b,
    fst block <> [] /\ forallb isLabelChar (fst block) = true
    /\ snd block = a :: u /\ isWhiteSpace a = false
    /\ snd block = v ++ [b] /\ isWhiteSpace b = false
    /\ hasBlankLine (snd block) = false.
Proof.
  unfold wellFormedBlock.
  rewrite !andb_true_iff, !negb_true_iff, !jsstring_eqb_neq, jsstring_eqb_eq.
  intros [[[[Hne Hlab] Hbody] Htrim] Hblank].
  destruct (trim_shape (snd block))
    as [E | (a & u & b & v & E1 & Ha & E2 & Hb)]; rewrite Htrim in *;
    [congruence|].
  exists a, u, v, b. repeat split; auto.
Qed.

(** ** The round trip through platoText *)

Lemma blockText_tail label body (tail : jsstring) :
  blockText (label, body) ++ tail
  = label ++ 58%N :: 32%N :: body ++ LF :: LF :: tail.
Proof.
  unfold blockText. cbn [fst snd]. rewrite <- app_assoc. f_equal.
  change (js ": ") with [58%N; 32%N]. cbn [app]. do 2 f_equal.
  now rewrite <- app_assoc.
Qed.

(** The extractor reads a text made of well-formed blocks back as those
    blocks, wherever in the input the text starts. *)
Lemma textBlocks_wellFormed blocks : forall pre fuel,
  forallb wellFormedBlock blocks = true ->
  length (flat_map blockText blocks) < fuel ->
  textBlocks fuel (pre ++ flat_map blockText blocks)
    (mkRegExp blockPattern (length pre))
  = blocks.
Proof.
  induction blocks as [|[label body] blocks IH]; intros pre [|fuel] Hok Hfuel;
    try (simpl in Hfuel; lia).
  - cbn [flat_map textBlocks]. unfold exec. cbn [lastIndex source].
    rewrite app_nil_r, skipn_all, Nat.ltb_irrefl. reflexivity.
  - cbn [forallb] in Hok. apply andb_true_iff in Hok. destruct Hok as [Hb Hok].
    destruct (wellFormedBlock_inv _ Hb)
      as (a & u & v & b & Hne & Hlab & Ha & Hwa & Hv & Hwb & Hblank).
    cbn [fst snd] in *. cbn [flat_map] in *.
    set (tail := flat_map blockText blocks) in *.
    rewrite blockText_tail in *.
    cbn [textBlocks].
    rewrite (exec_entry pre label body a u v b tail) by assumption.
    cbn [group capture groups Nat.eqb stringData]. f_equal.
    replace (pre ++ label ++ 58%N :: 32%N :: body ++ LF :: LF :: tail)
      with ((pre ++ label ++ 58%N :: 32%N :: body ++ [LF; LF]) ++ tail).
    + apply IH; [exact Hok|].
      rewrite !length_app in Hfuel. cbn [length] in Hfuel.
      rewrite !length_app in Hfuel. cbn [length] in Hfuel. lia.
    + rewrite <- app_assoc. f_equal. rewrite <- app_assoc. f_equal.
      cbn [app]. do 2 f_equal. now rewrite <- app_assoc.
Qed.

Lemma blocksOf_wellFormed blocks :
  forallb wellFormedBlock blocks = true ->
  blocksOf (flat_map blockText blocks) = blocks.
Proof.
  intros Hok. unfold blocksOf.
  apply (textBlocks_wellFormed blocks [] _ Hok (Nat.lt_succ_diag_r _)).
Qed.

Lemma transcribable_fieldsOf m :
  transcribable m = true ->
  wellFormedBlock (fieldsOf m) = true /\ entryText m = blockText (fieldsOf m).
Proof.
  unfold transcribable, wellFormedBlock, entryText, blockText, fieldsOf,
    nameOf, contentOf.
  destruct (stringField (js "name") m) as [n|]; [|discriminate].
  destruct (stringField (js "content") m) as [c|]; [|discriminate].
  cbn [fst snd]. intros H. rewrite trim_idem, jsstring_eqb_refl, andb_true_r.
  auto.
Qed.

Lemma transcribable_blocks elements :
  forallb transcribable elements = true ->
  forallb wellFormedBlock (map fieldsOf elements) = true
  /\ flat_map entryText elements = flat_map blockText (map fieldsOf elements).
Proof.
  induction elements as [|m elements IH]; intros Hok; [split; reflexivity|].
  cbn [forallb] in Hok. apply andb_true_iff in Hok. destruct Hok as [Hm Hok].
  destruct (transcribable_fieldsOf m Hm) as [Hwf Htext].
  destruct (IH Hok) as [IHwf IHtext].
  cbn [map forallb flat_map]. now rewrite Hwf, IHwf, Htext, IHtext.
Qed.

(** C1, amended. For a non-empty array whose entries have string [name] and
    [content], a trimmed name that is a non-empty run of the label
    characters (letters, digits, underscore, space, hyphen) and a trimmed
    content that is non-empty and holds no blank line, [CmjToPlatoText]
    followed by [platoTextToCmj] returns one message per entry, in order,
    with the entry's name and content trimmed and the role decided again
    from the trimmed name; for an entry whose upper-cased trimmed name is
    neither sentinel that role is "user". *)
Theorem round_trip_through_text
    (toUpperCase : jsstring -> jsstring) (elements : list JsValue)
    (console : Console) :
  elements <> [] ->
  forallb transcribable elements = true ->
  RoundTrip toUpperCase elements console
  /\ (forall m, In m elements -> statedPremise toUpperCase m = true ->
                role (normalise toUpperCase m) = js "user").
Proof.
  intros Hne Hok. split.
  - unfold RoundTrip. rewrite returned_CmjToPlatoText. cbn [bind].
    destruct (transcribable_blocks elements Hok) as [Hwf Htext].
    rewrite platoTextToCmj_blocks.
    + rewrite Htext, (blocksOf_wellFormed _ Hwf), map_map.
      apply f_equal, map_ext. intros m.
      unfold blockMessage, normalise, fieldsOf. cbn [fst snd].
      now rewrite !trim_idem.
    + destruct elements as [|m l]; [congruence|].
      cbn [forallb] in Hok. apply andb_true_iff in Hok.
      destruct (transcribable_fieldsOf m (proj1 Hok)) as [Hm E].
      apply wellFormedBlock_inv in Hm. destruct Hm as (_ & _ & _ & _ & H & _).
      cbn [flat_map]. rewrite E. unfold blockText.
      destruct (fst (fieldsOf m)); [congruence | discriminate].
  - intros m _. unfold statedPremise, normalise, nameOf, roleFor. cbn [role].
    destruct (stringField (js "name") m) as [n|]; [|discriminate].
    destruct (stringField (js "content") m) as [c|]; [|discriminate].
    rewrite andb_true_iff, !negb_true_iff. intros [-> ->]. reflexivity.
Qed.

(** An assistant called Bob and a user called Alice, with white space
    around her name and a line break inside her content. *)
Lemma round_trip_through_text_witness :
  [bobWithRole; alice] <> []
  /\ forallb transcribable [bobWithRole; alice] = true
  /\ RoundTrip basicLatinUpper [bobWithRole; alice] []
  /\ (forall m, In m [bobWithRole; alice] ->
                statedPremise basicLatinUpper m = true ->
                role (normalise basicLatinUpper m) = js "user").
Proof.
  assert (Hne : [bobWithRole; alice] <> []) by discriminate.
  assert (Hok : forallb transcribable [bobWithRole; alice] = true)
    by reflexivity.
  split; [exact Hne|]. split; [exact Hok|].
  exact (round_trip_through_text basicLatinUpper [bobWithRole; alice] []
           Hne Hok).
Defined.

(** A name outside the label alphabet comes back cut to its last run of
    label characters. *)
Lemma round_trip_cuts_name :
  (text <- returned (CmjToPlatoText (JsArray [drBob]) []) ;;
   platoTextToCmj basicLatinUpper (JsString text))
  = Normal [mkMessage (js "user") (js "Bob") (js "Hello")].
Proof. vm_compute. reflexivity. Qed.

(** An entry whose name trims to nothing leaves no label for the pattern
    to find. *)
Lemma round_trip_drops_nameless :
  (text <- returned (CmjToPlatoText (JsArray [nameless]) []) ;;
   platoTextToCmj basicLatinUpper (JsString text))
  = Normal [].
Proof. vm_compute. reflexivity. Qed.

(** After an empty content the white space of the pattern runs on into the
    next block, which becomes the content. *)
Lemma round_trip_merges_after_empty_content :
  (text <- returned (CmjToPlatoText (JsArray [bobSilent; al]) []) ;;
   platoTextToCmj basicLatinUpper (JsString text))
  = Normal [mkMessage (js "user") (js "Bob") (js "Al: x")].
Proof. vm_compute. reflexivity. Qed.

(** A content with a blank line comes back cut at the blank line. *)
Lemma round_trip_cuts_content :
  (text <- returned (CmjToPlatoText (JsArray [bobTwoParagraphs]) []) ;;
   platoTextToCmj basicLatinUpper (JsString text))
  = Normal [mkMessage (js "user") (js "Bob") (js "Hi")].
Proof. vm_compute. reflexivity. Qed.

(** The empty array becomes the empty text, which [platoTextToCmj] rejects. *)
Lemma round_trip_rejects_empty_array :
  (text <- returned (CmjToPlatoText (JsArray []) []) ;;
   platoTextToCmj basicLatinUpper (JsString text))
  = Throw (Error (js "Invalid input: platoText must be a non-empty string")).
Proof. vm_compute. reflexivity. Qed.

(** C1 as stated fails: each of the five arrays meets its premise (string
    fields, no name colliding with a sentinel), and none comes back as
    its normalised self. *)
Lemma round_trip_as_stated_fails :
  (forallb (statedPremise basicLatinUpper) [drBob] = true
   /\ ~ RoundTrip basicLatinUpper [drBob] [])
  /\ (forallb (statedPremise basicLatinUpper) [nameless] = true
      /\ ~ RoundTrip basicLatinUpper [nameless] [])
  /\ (forallb (statedPremise basicLatinUpper) [bobSilent; al] = true
      /\ ~ RoundTrip basicLatinUpper [bobSilent; al] [])
  /\ (forallb (statedPremise basicLatinUpper) [bobTwoParagraphs] = true
      /\ ~ RoundTrip basicLatinUpper [bobTwoParagraphs] [])
  /\ (forallb (statedPremise basicLatinUpper) [] = true
      /\ ~ RoundTrip basicLatinUpper [] []).
Proof.
  unfold RoundTrip.
  rewrite round_trip_cuts_name, round_trip_drops_nameless,
    round_trip_merges_after_empty_content, round_trip_cuts_content,
    round_trip_rejects_empty_array.
  repeat split; try reflexivity; vm_compute; discriminate.
Qed.

(** ** The text path does not depend on the host beyond Basic Latin *)

Lemma isLabelChar_isBasicLatin c : isLabelChar c = true -> isBasicLatin c = true.
Proof.
  unfold isLabelChar, isBasicLatin.
  rewrite !orb_true_iff, !andb_true_iff, !N.leb_le, !N.eqb_eq, N.ltb_lt. lia.
Qed.

Lemma forallb_dropWhile (P p : codeunit -> bool) s :
  forallb P s = true -> forallb P (dropWhile p s) = true.
Proof.
  induction s as [|c s IH]; simpl; [auto|].
  intros H. destruct (p c); [|exact H].
  apply andb_true_iff in H. apply IH, H.
Qed.

Lemma forallb_rev (P : codeunit -> bool) s : forallb P (rev s) = forallb P s.
Proof.
  induction s as [|c s IH]; simpl; [reflexivity|].
  rewrite forallb_app, IH. simpl. rewrite andb_true_r. apply andb_comm.
Qed.

Lemma forallb_trim (P : codeunit -> bool) s :
  forallb P s = true -> forallb P (trim s) = true.
Proof.
  intros H. unfold trim, trimEnd, trimStart.
  rewrite forallb_rev. apply forallb_dropWhile.
  rewrite forallb_rev. now apply forallb_dropWhile.
Qed.

Lemma BasicLatinUpper_basicLatinUpper : BasicLatinUpper basicLatinUpper.
Proof. intros s _. reflexivity. Qed.

Lemma blockMessage_host toUpperCase b :
  BasicLatinUpper toUpperCase -> forallb isLabelChar (fst b) = true ->
  blockMessage toUpperCase b = blockMessage basicLatinUpper b.
Proof.
  intros Hup Hlab. unfold blockMessage, roleFor.
  rewrite Hup; [reflexivity|].
  apply forallb_trim, forallb_forall. intros c Hc.
  apply isLabelChar_isBasicLatin. rewrite forallb_forall in Hlab. auto.
Qed.

(** Every host that upper-cases Basic Latin as the language says gives
    [platoTextToCmj] the same result: the labels it upper-cases are runs of
    label characters. *)
Lemma platoTextToCmj_host toUpperCase v :
  BasicLatinUpper toUpperCase ->
  platoTextToCmj toUpperCase v = platoTextToCmj basicLatinUpper v.
Proof.
  intros Hup.
  destruct (guard_cases v) as [[Hg _] | [_ (s & -> & Hs)]].
  - unfold platoTextToCmj. now rewrite Hg.
  - rewrite !platoTextToCmj_blocks by assumption. f_equal.
    unfold blocksOf.
    pose proof (textBlocks_labels s (S (length s)) 0) as Hlab.
    induction Hlab as [|b l [_ Hb] _ IH]; simpl; [reflexivity|].
    now rewrite IH, (blockMessage_host _ _ Hup Hb).
Qed.

(** The five failures do not depend on the host: whatever [toUpperCase]
    does outside Basic Latin, the array returned differs from the
    normalised entries in its names, its contents or its length, or is not
    returned at all. *)
Lemma round_trip_fails_on_every_host toUpperCase :
  BasicLatinUpper toUpperCase ->
  ~ RoundTrip toUpperCase [drBob] []
  /\ ~ RoundTrip toUpperCase [nameless] []
  /\ ~ RoundTrip toUpperCase [bobSilent; al] []
  /\ ~ RoundTrip toUpperCase [bobTwoParagraphs] []
  /\ ~ RoundTrip toUpperCase [] [].
Proof.
  intros Hup. unfold RoundTrip.
  repeat split; intros H; rewrite returned_CmjToPlatoText in H;
    cbn [bind] in H; rewrite (platoTextToCmj_host _ _ Hup) in H;
    apply (f_equal namesAndContents) in H; vm_compute in H; discriminate.
Qed.

(** ** The scenario of the spec *)

(** C2. On the text
    "MACHINA RATIOCINATRIX: Hello there.\n\nINSTRUCTIONS: Be concise.\n\nAlice: Hi!\n\n"
    [platoTextToCmj] returns the three messages assistant / MACHINA
    RATIOCINATRIX / Hello there., system / INSTRUCTIONS / Be concise. and
    user / Alice / Hi!, in that order, on every host whose [toUpperCase]
    treats Basic Latin as the language specifies. *)
Theorem platoTextToCmj_scenario (toUpperCase : jsstring -> jsstring) :
  BasicLatinUpper toUpperCase ->
  platoTextToCmj toUpperCase (JsString scenarioText)
  = Normal
      [mkMessage (js "assistant") (js "MACHINA RATIOCINATRIX") (js "Hello there.");
       mkMessage (js "system") (js "INSTRUCTIONS") (js "Be concise.");
       mkMessage (js "user") (js "Alice") (js "Hi!")].
Proof.
  intros Hup. rewrite (platoTextToCmj_host _ _ Hup).
  vm_compute. reflexivity.
Qed.

Lemma platoTextToCmj_scenario_witness :
  platoTextToCmj basicLatinUpper (JsString scenarioText)
  = Normal
      [mkMessage (js "assistant") (js "MACHINA RATIOCINATRIX") (js "Hello there.");
       mkMessage (js "system") (js "INSTRUCTIONS") (js "Be concise.");
       mkMessage (js "user") (js "Alice") (js "Hi!")].
Proof.
  exact (platoTextToCmj_scenario basicLatinUpper BasicLatinUpper_basicLatinUpper).
Defined.

(** ** Text to HTML *)

Lemma searchFrom_Chr c s : forall i,
  match searchFrom (Chr c) i s with
  | Some (j, y) =>
      exists pre, s = pre ++ c :: rest y /\ j = i + length pre
                  /\ substitute c [] pre = pre
  | None => forall repl, substitute c repl s = s
  end.
Proof.
  induction s as [|x s IH]; intros i; [intros repl; reflexivity|].
  cbn [searchFrom]. unfold matchAt, Chr. cbn [matcher rest caps].
  destruct (N.eqb_spec c x) as [<-|Hx].
  - exists []. simpl. rewrite Nat.add_0_r. auto.
  - specialize (IH (S i)). fold (Chr c) in IH |- *.
    assert (Hsub : forall repl t,
               substitute c repl (x :: t) = x :: substitute c repl t).
    { intros repl t. unfold substitute. simpl.
      destruct (N.eqb_spec c x); [congruence | reflexivity]. }
    destruct (searchFrom (Chr c) (S i) s) as [[j y]|].
    + destruct IH as (pre & -> & -> & Hpre). exists (x :: pre).
      rewrite Hsub, Hpre. simpl. repeat split; auto; lia.
    + intros repl. now rewrite Hsub, IH.
Qed.

Lemma substitute_cons c repl x t :
  substitute c repl (x :: t)
  = (if N.eqb c x then repl else [x]) ++ substitute c repl t.
Proof. reflexivity. Qed.

Lemma substitute_length c l : length (substitute c [] l) <= length l.
Proof.
  induction l as [|x l IH]; [simpl; lia|].
  rewrite substitute_cons. destruct (N.eqb c x); simpl; lia.
Qed.

Lemma substitute_prefix c repl pre s :
  substitute c [] pre = pre ->
  substitute c repl (pre ++ c :: s) = pre ++ repl ++ substitute c repl s.
Proof.
  induction pre as [|x pre IH]; cbn [app]; rewrite !substitute_cons.
  - intros _. now rewrite N.eqb_refl.
  - destruct (N.eqb_spec c x) as [<-|Hx]; cbn [app].
    + intros H. exfalso. apply (f_equal (@length _)) in H.
      pose proof (substitute_length c pre) as Hle. simpl in H.
      rewrite H in Hle. lia.
    + intros [= H]. now rewrite (IH H).
Qed.

(** [s.replace(/c/g, repl)] replaces every [c]. *)
Lemma replaceRegExp_Chr c repl s :
  replaceRegExp (Chr c) true repl s = substitute c repl s.
Proof.
  unfold replaceRegExp.
  assert (H : forall fuel t, length t < fuel ->
              replaceFrom fuel (Chr c) true repl t = substitute c repl t).
  { induction fuel as [|fuel IH]; intros t Hfuel; [lia|].
    cbn [replaceFrom].
    pose proof (searchFrom_Chr c t 0) as Hs.
    destruct (searchFrom (Chr c) 0 t) as [[j y]|]; [|now rewrite Hs].
    destruct Hs as (pre & -> & -> & Hpre). cbn [Nat.add negb].
    rewrite firstn_app, firstn_all, Nat.sub_diag, skipn_length_app.
    cbn [firstn length]. rewrite app_nil_r.
    rewrite (proj2 (Nat.ltb_lt _ _) (Nat.lt_succ_diag_r _)).
    rewrite IH, substitute_prefix; auto.
    rewrite length_app in Hfuel. simpl in Hfuel. lia. }
  apply H. lia.
Qed.

Lemma substitute_app c repl s t :
  substitute c repl (s ++ t) = substitute c repl s ++ substitute c repl t.
Proof. apply flat_map_app. Qed.

(** The two passes of the source escape a string code unit by code unit. *)
Lemma escape_passes s :
  replaceRegExp gtPattern true (js "&gt;")
    (replaceRegExp ltPattern true (js "&lt;") s)
  = escapeHtml s.
Proof.
  unfold gtPattern, ltPattern. rewrite !replaceRegExp_Chr.
  induction s as [|c s IH]; [reflexivity|].
  rewrite substitute_cons, substitute_app, IH.
  change (escapeHtml (c :: s)) with (escapeUnit c ++ escapeHtml s).
  f_equal. unfold escapeUnit. rewrite (N.eqb_sym c 60), (N.eqb_sym c 62).
  destruct (N.eqb_spec 60 c) as [<-|H60]; [reflexivity|].
  rewrite substitute_cons. apply app_nil_r.
Qed.

(** With more fuel than text left, the loop of [platoTextToPlatoHtml] ends,
    having appended one paragraph per block. *)
Lemma platoTextToPlatoHtml_loop_blocks platoText : forall fuel i result,
  length platoText - i < fuel ->
  platoTextToPlatoHtml_loop fuel platoText (mkRegExp blockPattern i) result
  = Normal (result ++ flat_map renderBlock
              (textBlocks fuel platoText (mkRegExp blockPattern i))).
Proof.
  induction fuel as [|fuel IH]; intros i result Hfuel; [lia|].
  cbn [platoTextToPlatoHtml_loop textBlocks].
  destruct (exec (mkRegExp blockPattern i) platoText) as [re' [m|]] eqn:He.
  - destruct (exec_blockPattern He)
      as (label & body & j & -> & -> & _ & _ & -> & Hj).
    cbn [callTrim bind stringData flat_map]. rewrite escape_passes.
    rewrite IH by lia. unfold renderBlock. cbn [fst snd].
    now rewrite <- !app_assoc.
  - cbn [flat_map]. now rewrite app_nil_r.
Qed.

(** No block starts in a text of white space. *)
Lemma blocksOf_whitespace s : forallb isWhiteSpace s = true -> blocksOf s = [].
Proof.
  intros Hs. unfold blocksOf. cbn [textBlocks].
  destruct (exec (mkRegExp blockPattern 0) s) as [re' [m|]] eqn:He;
    [|reflexivity].
  exfalso. unfold exec in He. cbn [lastIndex source skipn] in He.
  destruct (length s <? 0); [discriminate|].
  destruct (searchFrom blockPattern 0 s) as [[j y]|] eqn:Hsearch;
    [|discriminate].
  apply searchFrom_inv in Hsearch. destruct Hsearch as (pre & s' & -> & _ & Hm).
  apply blockPattern_inv in Hm. destruct Hm as (label & ws & body & -> & _).
  rewrite !forallb_app in Hs. cbn [forallb] in Hs.
  rewrite !andb_true_iff in Hs. destruct Hs as (_ & _ & Hcolon & _).
  discriminate.
Qed.

Lemma trimEnd_whitespace_snoc s c :
  isWhiteSpace c = true -> trimEnd (s ++ [c]) = trimEnd s.
Proof.
  intros Hc. unfold trimEnd. rewrite rev_app_distr. simpl. now rewrite Hc.
Qed.

(** What [trimEnd] removes from the paragraphs of a non-empty list of
    blocks is the newline after the last one. *)
Lemma trimEnd_paragraphs blocks :
  blocks <> [] ->
  trimEnd (flat_map renderBlock blocks) ++ [LF] = flat_map renderBlock blocks.
Proof.
  intros Hne. destruct (exists_last Hne) as (front & b & ->).
  rewrite flat_map_app. cbn [flat_map]. rewrite app_nil_r.
  unfold renderBlock.
  change (js "</p>" ++ [LF]) with (js "</p" ++ [62%N] ++ [LF]).
  rewrite !app_assoc. rewrite trimEnd_whitespace_snoc by reflexivity.
  now rewrite trimEnd_snoc by reflexivity.
Qed.

(** C5. [platoTextToPlatoHtml] writes, for every block the pattern extracts
    from the text and in their order, the paragraph
    [<p class="dialogue"><span class="speaker">speaker</span> utterance</p>]
    and a newline, speaker and utterance trimmed and the utterance escaped
    by turning each [<] into [&lt;], each [>] into [&gt;] and nothing else;
    [trimEnd] of that is returned, which takes away the newline after the
    last paragraph and nothing before it. On a well-formed text, made of
    blocks [Label: content] each closed by a blank line, the blocks
    extracted are the blocks written. For
    [platoTextToPlatoHtml("Bob: Hi <there>\n\n")] the result is
    [<p class="dialogue"><span class="speaker">Bob</span> Hi &lt;there&gt;</p>]. *)
Theorem text_to_html_serialization :
  (forall s : jsstring,
      platoTextToPlatoHtml (JsString s)
      = Normal (trimEnd (flat_map renderBlock (blocksOf s))))
  /\ (forall blocks : list (jsstring * jsstring),
         forallb wellFormedBlock blocks = true ->
         platoTextToPlatoHtml (JsString (flat_map blockText blocks))
         = Normal (trimEnd (flat_map renderBlock blocks)))
  /\ (forall blocks : list (jsstring * jsstring),
         blocks <> [] ->
         trimEnd (flat_map renderBlock blocks) ++ [LF]
         = flat_map renderBlock blocks)
  /\ (forall c : codeunit,
         escapeHtml [c]
         = if N.eqb c 60%N then js "&lt;"
           else if N.eqb c 62%N then js "&gt;" else [c])
  /\ platoTextToPlatoHtml (JsString (js "Bob: Hi <there>" ++ [LF; LF]))
     = Normal (paragraphOpen ++ js "Bob</span> Hi &lt;there&gt;</p>").
Proof.
  assert (Hmain : forall s : jsstring,
             platoTextToPlatoHtml (JsString s)
             = Normal (trimEnd (flat_map renderBlock (blocksOf s)))).
  { intros s. unfold platoTextToPlatoHtml.
    cbn [typeof stringData ToBoolean].
    change (jsstring_eqb (js "string") (js "string")) with true.
    cbn [negb]. rewrite negb_involutive.
    destruct (jsstring_eqb_spec (trim s) []) as [Hblank|_].
    - apply trim_nil_inv in Hblank.
      now rewrite (blocksOf_whitespace _ Hblank).
    - rewrite platoTextToPlatoHtml_loop_blocks by lia. reflexivity. }
  split; [exact Hmain|]. split; [|split; [|split]].
  - intros blocks Hwf. now rewrite Hmain, blocksOf_wellFormed.
  - apply trimEnd_paragraphs.
  - intros c. unfold escapeHtml. cbn [flat_map]. apply app_nil_r.
  - rewrite Hmain. vm_compute. reflexivity.
Qed.

(** Two well-formed blocks, the second with a line break, a [>] and an
    ampersand in its content. *)
Lemma text_to_html_serialization_witness :
  forallb wellFormedBlock bobBlocks = true
  /\ platoTextToPlatoHtml (JsString (flat_map blockText bobBlocks))
     = Normal (trimEnd (flat_map renderBlock bobBlocks))
  /\ trimEnd (flat_map renderBlock bobBlocks) ++ [LF]
     = flat_map renderBlock bobBlocks.
Proof.
  assert (Hwf : forallb wellFormedBlock bobBlocks = true) by reflexivity.
  assert (Hne : bobBlocks <> []) by discriminate.
  split; [exact Hwf|]. split.
  - exact (proj1 (proj2 text_to_html_serialization) bobBlocks Hwf).
  - exact (proj1 (proj2 (proj2 text_to_html_serialization)) bobBlocks Hne).
Defined.

(** ** The utterance of a dialogue paragraph, computed *)

Lemma platoHtmlToCmj_each_utterance toUpperCase identity doc messages p span :
  querySelector doc p (js "span") (js "speaker") = Some span ->
  platoHtmlToCmj_each toUpperCase identity doc messages p
  = messages ++ [mkMessage
                   (roleFor toUpperCase identity (trim (textContent span)))
                   (trim (textContent span))
                   (utteranceOf (textContent span) (textContent p))].
Proof. intros H. unfold platoHtmlToCmj_each. now rewrite H. Qed.

Lemma platoHtmlToPlatoText_each_utterance doc result p span :
  querySelector doc p (js "span") (js "speaker") = Some span ->
  platoHtmlToPlatoText_each doc result p
  = result ++ trim (textContent span) ++ js ": "
      ++ utteranceOf (textContent span) (textContent p) ++ [LF; LF].
Proof. intros H. unfold platoHtmlToPlatoText_each. now rewrite H. Qed.

Lemma repeatMatcher_greedy_dropWhile p cs s :
  repeatMatcher p true 0 s (fun s' => Some (mkState s' cs))
  = Some (mkState (dropWhile p s) cs).
Proof.
  induction s as [|c s IH]; simpl; [reflexivity|].
  destruct (p c); [now rewrite IH | reflexivity].
Qed.

(** Where the code and the wording agree: on a paragraph whose text, the
    label taken out, starts with the colon or holds no colon at all. *)
Lemma utteranceOf_agrees labelText paragraphText :
  (exists t, replaceString labelText [] paragraphText = 58%N :: t)
  \/ substitute 58%N [] (replaceString labelText [] paragraphText)
     = replaceString labelText [] paragraphText ->
  utteranceOf labelText paragraphText = utteranceAsStated labelText paragraphText.
Proof.
  unfold utteranceOf, utteranceAsStated.
  generalize (replaceString labelText [] paragraphText) as s.
  intros s [[t ->] | Hnone]; f_equal.
  - unfold replaceRegExp, colonPattern, Chr. cbn [replaceFrom length searchFrom].
    unfold matchAt. cbn [matcher rest caps]. rewrite N.eqb_refl.
    rewrite repeatMatcher_greedy_dropWhile. reflexivity.
  - assert (Hsearch : forall t i,
               substitute 58%N [] t = t -> searchFrom colonPattern i t = None).
    { induction t as [|c t IH]; intros i Ht; [reflexivity|].
      rewrite substitute_cons in Ht.
      destruct (N.eqb_spec 58%N c) as [<-|Hc].
      - exfalso. apply (f_equal (@length _)) in Ht.
        pose proof (substitute_length 58%N t) as Hle. simpl in Ht.
        rewrite Ht in Hle. lia.
      - injection Ht as Ht. cbn [searchFrom]. unfold matchAt, colonPattern, Chr.
        cbn [matcher rest caps].
        destruct (N.eqb_spec 58%N c) as [|_]; [congruence|].
        apply (IH (S i) Ht). }
    unfold replaceRegExp. cbn [replaceFrom]. rewrite (Hsearch s 0 Hnone).
    destruct s as [|c s]; [reflexivity|]. unfold stripLeadingColon.
    destruct (N.eqb_spec c 58%N) as [->|_]; [|reflexivity].
    exfalso. rewrite substitute_cons, N.eqb_refl in Hnone.
    apply (f_equal (@length _)) in Hnone.
    pose proof (substitute_length 58%N s) as Hle. simpl in Hnone.
    rewrite Hnone in Hle. lia.
Qed.

(** C4 on the markup [platoTextToPlatoHtml] writes for the block
    [Bob: Note: this]: the paragraph text is "Bob Note: this", the label
    text "Bob"; the colon of the utterance does not lead, and the pattern
    [/:\s*/], which is not anchored, removes it with the space after it.
    Both markup functions record "Notethis" where C4 says "Note: this". *)
Theorem utterance_inner_colon_removed :
  platoTextToPlatoHtml (JsString (js "Bob: Note: this" ++ [LF; LF]))
  = Normal noteMarkup
  /\ querySelectorAll noteDocument (js "p") (js "dialogue") = [noteParagraph]
  /\ textContent noteParagraph = js "Bob Note: this"
  /\ (forall (toUpperCase : jsstring -> jsstring) (machineConfig_name : jsstring),
         platoHtmlToCmj toUpperCase (fun _ => noteDocument) machineConfig_name
           (JsString noteMarkup)
         = Normal [mkMessage
                     (roleFor toUpperCase machineConfig_name (js "Bob"))
                     (js "Bob") (js "Notethis")])
  /\ platoHtmlToPlatoText (fun _ => noteDocument) (JsString noteMarkup)
     = Normal (js "Bob: Notethis" ++ [LF; LF])
  /\ utteranceOf (js "Bob") (js "Bob Note: this") = js "Notethis"
  /\ utteranceAsStated (js "Bob") (js "Bob Note: this") = js "Note: this".
Proof.
  split; [vm_compute; reflexivity|].
  split; [vm_compute; reflexivity|].
  split; [vm_compute; reflexivity|].
  split.
  { intros toUpperCase machineConfig_name.
    unfold platoHtmlToCmj.
    change (negb (ToBoolean (JsString noteMarkup))
            || negb (jsstring_eqb (typeof (JsString noteMarkup)) (js "string")))
      with false.
    cbv iota.
    change (querySelectorAll noteDocument (js "p") (js "dialogue"))
      with [noteParagraph].
    cbn [fold_left].
    rewrite (platoHtmlToCmj_each_utterance toUpperCase machineConfig_name
               noteDocument [] noteParagraph
               (Element (js "span") [js "speaker"] [Text (js "Bob")]) eq_refl).
    vm_compute. reflexivity. }
  split; [vm_compute; reflexivity|].
  split; vm_compute; reflexivity.
Qed.

(** * Further properties: how the functions compose *)

(** ** Text to HTML and text to CMJ read the same blocks *)

Lemma platoTextToPlatoHtml_blocks (s : jsstring) :
  platoTextToPlatoHtml (JsString s)
  = Normal (trimEnd (flat_map renderBlock (blocksOf s))).
Proof.
  unfold platoTextToPlatoHtml. cbn [typeof stringData ToBoolean].
  change (jsstring_eqb (js "string") (js "string")) with true.
  cbn [negb]. rewrite negb_involutive.
  destruct (jsstring_eqb_spec (trim s) []) as [Hblank|_].
  - apply trim_nil_inv in Hblank. now rewrite (blocksOf_whitespace _ Hblank).
  - now rewrite platoTextToPlatoHtml_loop_blocks by lia.
Qed.

Lemma flat_map_map {A B C : Type} (f : A -> B) (g : B -> list C) (l : list A) :
  flat_map g (map f l) = flat_map (fun x => g (f x)) l.
Proof. induction l as [|x l IH]; simpl; [reflexivity | now rewrite IH]. Qed.

(** X1. On the same non-empty text the two text consumers agree: the paragraphs
    [platoTextToPlatoHtml] writes are those of the messages [platoTextToCmj]
    returns, one per message and in their order, the name in the speaker
    span and the escaped content after it. *)
Theorem text_paragraphs_are_cmj_messages
    (toUpperCase : jsstring -> jsstring) (s : jsstring) :
  s <> [] ->
  exists messages,
    platoTextToCmj toUpperCase (JsString s) = Normal messages
    /\ platoTextToPlatoHtml (JsString s)
       = Normal (trimEnd (flat_map messageParagraph messages)).
Proof.
  intros Hs. exists (map (blockMessage toUpperCase) (blocksOf s)). split.
  - now apply platoTextToCmj_blocks.
  - rewrite platoTextToPlatoHtml_blocks, flat_map_map. reflexivity.
Qed.

Lemma text_paragraphs_are_cmj_messages_witness :
  scenarioText <> []
  /\ exists messages,
       platoTextToCmj basicLatinUpper (JsString scenarioText) = Normal messages
       /\ platoTextToPlatoHtml (JsString scenarioText)
          = Normal (trimEnd (flat_map messageParagraph messages)).
Proof.
  assert (H : scenarioText <> []) by discriminate.
  split; [exact H|].
  exact (text_paragraphs_are_cmj_messages basicLatinUpper scenarioText H).
Defined.

(** ** HTML to text is HTML to CMJ followed by CMJ to text *)

Lemma platoHtmlToPlatoText_fold toUpperCase identity doc paragraphs :
  forall result,
  fold_left (platoHtmlToPlatoText_each doc) paragraphs result
  = result
    ++ flat_map (fun p =>
                   flat_map (fun m => entryText (messageValue m))
                     (optionList (paragraphMessage toUpperCase identity doc p)))
         paragraphs.
Proof.
  induction paragraphs as [|p ps IH]; intros result; cbn [fold_left flat_map].
  - now rewrite app_nil_r.
  - rewrite IH. unfold platoHtmlToPlatoText_each, paragraphMessage.
    destruct (querySelector doc p (js "span") (js "speaker")) as [span|];
      cbn [optionList flat_map app].
    + rewrite entryText_messageValue. cbn [name content].
      unfold utteranceOf. rewrite !trim_idem, app_nil_r.
      now rewrite <- !app_assoc.
    + reflexivity.
Qed.

(** X2. On markup that is not blank, [platoHtmlToPlatoText] returns what
    [CmjToPlatoText] makes of the messages [platoHtmlToCmj] returns for the
    same markup: the two markup readers see the same paragraphs, speakers
    and utterances, whatever the parser, the host and the machine name. *)
Theorem html_to_text_factors_through_cmj
    (toUpperCase : jsstring -> jsstring) (parseFromString : jsstring -> Document)
    (machineConfig_name : jsstring) (s : jsstring) (console : Console) :
  trim s <> [] ->
  exists messages,
    platoHtmlToCmj toUpperCase parseFromString machineConfig_name (JsString s)
    = Normal messages
    /\ returned (CmjToPlatoText (JsArray (map messageValue messages)) console)
       = platoHtmlToPlatoText parseFromString (JsString s).
Proof.
  intros Hs.
  assert (Hne : s <> []) by (intros ->; now apply Hs).
  unfold platoHtmlToCmj, platoHtmlToPlatoText.
  destruct (guard_cases (JsString s)) as [[_ [[= E] | E]] | [-> _]];
    [congruence | now elim E |].
  cbn [typeof stringData ToBoolean].
  change (jsstring_eqb (js "string") (js "string")) with true. cbn [negb].
  rewrite negb_involutive.
  destruct (jsstring_eqb_spec (trim s) []) as [E|_]; [congruence|].
  eexists; split; [reflexivity|].
  rewrite returned_CmjToPlatoText, flat_map_map.
  rewrite (platoHtmlToCmj_fold toUpperCase machineConfig_name),
    (platoHtmlToPlatoText_fold toUpperCase machineConfig_name).
  cbn [app]. f_equal.
  induction (querySelectorAll (parseFromString s) (js "p") (js "dialogue"))
    as [|p ps IH]; cbn [flat_map]; [reflexivity|].
  now rewrite flat_map_app, IH.
Qed.

Lemma html_to_text_factors_through_cmj_witness :
  trim noteMarkup <> []
  /\ exists messages,
       platoHtmlToCmj basicLatinUpper (fun _ => noteDocument) MACHINA
         (JsString noteMarkup) = Normal messages
       /\ returned (CmjToPlatoText (JsArray (map messageValue messages)) [])
          = platoHtmlToPlatoText (fun _ => noteDocument) (JsString noteMarkup).
Proof.
  assert (H : trim noteMarkup <> []) by (vm_compute; discriminate).
  split; [exact H|].
  exact (html_to_text_factors_through_cmj basicLatinUpper
           (fun _ => noteDocument) MACHINA noteMarkup [] H).
Defined.

(** ** Text to CMJ and back *)

Lemma flat_map_blockText_nonempty blocks :
  blocks <> [] -> forallb wellFormedBlock blocks = true ->
  flat_map blockText blocks <> [].
Proof.
  destruct blocks as [|b blocks]; [congruence|]. intros _ Hok.
  cbn [forallb] in Hok. apply andb_true_iff in Hok. destruct Hok as [Hb _].
  apply wellFormedBlock_inv in Hb. destruct Hb as (_ & _ & _ & _ & Hne & _).
  cbn [flat_map]. unfold blockText.
  destruct (fst b); [congruence | discriminate].
Qed.

(** X3. A text of canonical blocks (label a trimmed, non-empty run of label
    characters; content trimmed, non-empty, without a blank line) survives
    [platoTextToCmj] followed by [CmjToPlatoText] unchanged. *)
Theorem text_cmj_text_round_trip
    (toUpperCase : jsstring -> jsstring)
    (blocks : list (jsstring * jsstring)) (console : Console) :
  blocks <> [] ->
  forallb canonicalBlock blocks = true ->
  exists messages,
    platoTextToCmj toUpperCase (JsString (flat_map blockText blocks))
    = Normal messages
    /\ returned (CmjToPlatoText (JsArray (map messageValue messages)) console)
       = Normal (flat_map blockText blocks).
Proof.
  intros Hne Hcanon.
  assert (Hwf : forallb wellFormedBlock blocks = true).
  { apply forallb_forall. intros b Hb.
    rewrite forallb_forall in Hcanon. specialize (Hcanon b Hb).
    unfold canonicalBlock in Hcanon. apply andb_true_iff in Hcanon. tauto. }
  exists (map (blockMessage toUpperCase) blocks). split.
  - rewrite platoTextToCmj_blocks by now apply flat_map_blockText_nonempty.
    now rewrite blocksOf_wellFormed.
  - rewrite returned_CmjToPlatoText, !flat_map_map. f_equal.
    clear Hne Hwf. induction blocks as [|b blocks IH]; [reflexivity|].
    cbn [forallb] in Hcanon. apply andb_true_iff in Hcanon.
    destruct Hcanon as [Hb Hrest]. cbn [flat_map]. rewrite (IH Hrest). f_equal.
    unfold canonicalBlock, wellFormedBlock in Hb.
    rewrite !andb_true_iff, !jsstring_eqb_eq in Hb.
    destruct Hb as [[[[_ _] Hcontent] _] Hlabel].
    rewrite entryText_messageValue. unfold blockMessage, blockText.
    cbn [name content]. now rewrite !trim_idem, Hlabel, Hcontent.
Qed.

Lemma text_cmj_text_round_trip_witness :
  bobBlocks <> []
  /\ forallb canonicalBlock bobBlocks = true
  /\ exists messages,
       platoTextToCmj basicLatinUpper (JsString (flat_map blockText bobBlocks))
       = Normal messages
       /\ returned (CmjToPlatoText (JsArray (map messageValue messages)) [])
          = Normal (flat_map blockText bobBlocks).
Proof.
  assert (Hne : bobBlocks <> []) by discriminate.
  assert (Hok : forallb canonicalBlock bobBlocks = true) by reflexivity.
  split; [exact Hne|]. split; [exact Hok|].
  exact (text_cmj_text_round_trip basicLatinUpper bobBlocks [] Hne Hok).
Defined.

(** ** CMJ to text to HTML *)

(** X4. For an array of entries the text form can carry (the empty array
    included), [CmjToPlatoText] followed by [platoTextToPlatoHtml] writes one
    paragraph per entry, in order: the trimmed name in the speaker span, the
    trimmed and escaped content after it. *)
Theorem cmj_to_html_through_text
    (elements : list JsValue) (console : Console) :
  forallb transcribable elements = true ->
  (text <- returned (CmjToPlatoText (JsArray elements) console) ;;
   platoTextToPlatoHtml (JsString text))
  = Normal (trimEnd (flat_map (fun m => renderBlock (nameOf m, contentOf m))
                       elements)).
Proof.
  intros Hok. rewrite returned_CmjToPlatoText. cbn [bind].
  destruct (transcribable_blocks elements Hok) as [Hwf Htext].
  rewrite platoTextToPlatoHtml_blocks, Htext, (blocksOf_wellFormed _ Hwf).
  rewrite flat_map_map. do 2 f_equal.
  apply flat_map_ext. intros m. unfold renderBlock, fieldsOf. cbn [fst snd].
  now rewrite !trim_idem.
Qed.

Lemma cmj_to_html_through_text_witness :
  forallb transcribable [bobWithRole; alice] = true
  /\ (text <- returned (CmjToPlatoText (JsArray [bobWithRole; alice]) []) ;;
      platoTextToPlatoHtml (JsString text))
     = Normal (trimEnd (flat_map (fun m => renderBlock (nameOf m, contentOf m))
                          [bobWithRole; alice])).
Proof.
  assert (Hok : forallb transcribable [bobWithRole; alice] = true)
    by reflexivity.
  split; [exact Hok|].
  exact (cmj_to_html_through_text [bobWithRole; alice] [] Hok).
Defined.

(** ** Text that holds no block *)

Lemma hasBlankLine_after pre rest :
  hasBlankLine (pre ++ LF :: LF :: rest) = true.
Proof.
  destruct (hasBlankLine (pre ++ LF :: LF :: rest)) eqn:E; [reflexivity|].
  apply hasBlankLine_suffix in E. discriminate.
Qed.

(** A block needs a colon and a blank line after it. *)
Lemma blocksOf_none s :
  noColon s = true \/ hasBlankLine s = false -> blocksOf s = [].
Proof.
  intros Hs. unfold blocksOf. cbn [textBlocks].
  destruct (exec (mkRegExp blockPattern 0) s) as [re' [m|]] eqn:He;
    [|reflexivity].
  exfalso. unfold exec in He. cbn [lastIndex source skipn] in He.
  destruct (length s <? 0); [discriminate|].
  destruct (searchFrom blockPattern 0 s) as [[j y]|] eqn:Hsearch;
    [|discriminate].
  apply searchFrom_inv in Hsearch. destruct Hsearch as (pre & s' & -> & _ & Hm).
  apply blockPattern_inv in Hm. destruct Hm as (label & ws & body & -> & _).
  destruct Hs as [Hcolon | Hblank].
  - unfold noColon in Hcolon. apply negb_true_iff in Hcolon.
    rewrite !existsb_app in Hcolon. cbn [existsb] in Hcolon.
    rewrite N.eqb_refl in Hcolon. cbn [orb] in Hcolon.
    rewrite !orb_true_r in Hcolon. discriminate.
  - replace (pre ++ label ++ 58%N :: ws ++ body ++ LF :: LF :: rest y)
      with ((pre ++ label ++ 58%N :: ws ++ body) ++ LF :: LF :: rest y)
      in Hblank.
    + rewrite hasBlankLine_after in Hblank. discriminate.
    + rewrite <- !app_assoc. cbn [app]. now rewrite <- !app_assoc.
Qed.

(** X5. A non-empty text with no colon, or with no blank line (a last block left
    without its two newlines), holds no block: [platoTextToCmj] returns the
    empty array and [platoTextToPlatoHtml] the empty string, without an
    error. *)
Theorem text_without_block_yields_nothing
    (toUpperCase : jsstring -> jsstring) (s : jsstring) :
  s <> [] ->
  noColon s = true \/ hasBlankLine s = false ->
  platoTextToCmj toUpperCase (JsString s) = Normal []
  /\ platoTextToPlatoHtml (JsString s) = Normal [].
Proof.
  intros Hne Hs. split.
  - now rewrite platoTextToCmj_blocks, (blocksOf_none _ Hs).
  - now rewrite platoTextToPlatoHtml_blocks, (blocksOf_none _ Hs).
Qed.

(** A block without its closing blank line, and a closed line without a
    colon. *)
Lemma text_without_block_yields_nothing_witness :
  (platoTextToCmj basicLatinUpper (JsString (js "Bob: Hi" ++ [LF])) = Normal []
   /\ platoTextToPlatoHtml (JsString (js "Bob: Hi" ++ [LF])) = Normal [])
  /\ (platoTextToCmj basicLatinUpper (JsString (js "Bob - Hi" ++ [LF; LF]))
      = Normal []
      /\ platoTextToPlatoHtml (JsString (js "Bob - Hi" ++ [LF; LF])) = Normal []).
Proof.
  split.
  - apply (text_without_block_yields_nothing basicLatinUpper
             (js "Bob: Hi" ++ [LF])); [discriminate | right; reflexivity].
  - apply (text_without_block_yields_nothing basicLatinUpper
             (js "Bob - Hi" ++ [LF; LF])); [discriminate | left; reflexivity].
Defined.

(** ** The markup written holds no angle bracket of the text *)

Lemma noAngle_app s t : noAngle (s ++ t) = noAngle s && noAngle t.
Proof. apply forallb_app. Qed.

Lemma escapeUnit_noAngle c : noAngle (escapeUnit c) = true.
Proof.
  unfold escapeUnit.
  destruct (N.eqb_spec c 60) as [->|H60]; [reflexivity|].
  destruct (N.eqb_spec c 62) as [->|H62]; [reflexivity|].
  unfold noAngle. cbn [forallb]. rewrite andb_true_r.
  apply andb_true_iff; split; apply negb_true_iff, N.eqb_neq; assumption.
Qed.

Lemma escapeHtml_noAngle s : noAngle (escapeHtml s) = true.
Proof.
  induction s as [|c s IH]; [reflexivity|].
  change (escapeHtml (c :: s)) with (escapeUnit c ++ escapeHtml s).
  now rewrite noAngle_app, escapeUnit_noAngle, IH.
Qed.

Lemma isLabelChar_noAngle s : forallb isLabelChar s = true -> noAngle s = true.
Proof.
  unfold noAngle. rewrite !forallb_forall. intros H c Hc. specialize (H c Hc).
  unfold isLabelChar in H.
  rewrite !orb_true_iff, !andb_true_iff, !N.leb_le, !N.eqb_eq in H.
  apply andb_true_iff; split; apply negb_true_iff, N.eqb_neq; lia.
Qed.

(** X6. Whatever the text, what [platoTextToPlatoHtml] returns is a run of
    paragraphs with the fixed markup around a speaker part and an utterance
    part that hold neither [<] nor [>]: no angle bracket of the input reaches
    the output. *)
Theorem html_written_has_no_stray_angle (s : jsstring) :
  exists parts : list (jsstring * jsstring),
    platoTextToPlatoHtml (JsString s)
    = Normal (trimEnd (flat_map paragraphOf parts))
    /\ Forall (fun p => noAngle (fst p) = true /\ noAngle (snd p) = true) parts.
Proof.
  exists (map (fun b => (trim (fst b), escapeHtml (trim (snd b)))) (blocksOf s)).
  split.
  - rewrite platoTextToPlatoHtml_blocks, flat_map_map. reflexivity.
  - apply Forall_map. unfold blocksOf.
    eapply Forall_impl; [|apply textBlocks_labels].
    intros b [_ Hlab]. cbn [fst snd]. split.
    + now apply isLabelChar_noAngle, forallb_trim.
    + apply escapeHtml_noAngle.
Qed.

(** ** Text between the blocks is dropped *)

Lemma matchAt_noLabel c s :
  isLabelChar c = false -> matchAt blockPattern (c :: s) = None.
Proof.
  intros Hc. unfold matchAt, blockPattern. cbn [matcher rest caps repeatMatcher].
  now rewrite Hc.
Qed.

Lemma searchFrom_skip junk s : forall i,
  noLabelChar junk = true ->
  searchFrom blockPattern i (junk ++ s)
  = searchFrom blockPattern (i + length junk) s.
Proof.
  induction junk as [|c junk IH]; intros i Hj; cbn [app length].
  - now rewrite Nat.add_0_r.
  - cbn [noLabelChar forallb] in Hj. apply andb_true_iff in Hj.
    destruct Hj as [Hc Hj]. apply negb_true_iff in Hc.
    cbn [searchFrom]. rewrite (matchAt_noLabel _ _ Hc), (IH (S i) Hj).
    f_equal. lia.
Qed.

Lemma searchFrom_noLabel junk : forall i,
  noLabelChar junk = true -> searchFrom blockPattern i junk = None.
Proof.
  intros i Hj. rewrite <- (app_nil_r junk), searchFrom_skip by assumption.
  reflexivity.
Qed.

(** [exec] skips text without label characters and matches the entry after
    it. *)
Lemma exec_junk_entry pre junk label body a u v b tail :
  noLabelChar junk = true ->
  label <> [] -> forallb isLabelChar label = true ->
  body = a :: u -> isWhiteSpace a = false ->
  body = v ++ [b] -> isWhiteSpace b = false ->
  hasBlankLine body = false ->
  exec (mkRegExp blockPattern (length pre))
    (pre ++ junk ++ (label ++ 58%N :: 32%N :: body ++ LF :: LF :: tail))
  = (mkRegExp blockPattern
       (length (pre ++ junk ++ (label ++ 58%N :: 32%N :: body ++ [LF; LF]))),
     Some (mkMatch (length pre + length junk) [(2, body); (1, label)])).
Proof.
  intros Hj Hne Hlab Ha Hwa Hb Hwb Hblank. unfold exec. cbn [lastIndex source].
  destruct (Nat.ltb_spec
              (length (pre ++ junk ++ (label ++ 58%N :: 32%N :: body
                                         ++ LF :: LF :: tail)))
              (length pre)) as [Hlt|_].
  { rewrite length_app in Hlt. lia. }
  rewrite skipn_length_app, searchFrom_skip by assumption.
  destruct (label ++ 58%N :: 32%N :: body ++ LF :: LF :: tail) as [|c s] eqn:E.
  { destruct label; discriminate. }
  cbn [searchFrom]. rewrite <- E.
  rewrite (blockPattern_entry label body a u v b tail) by assumption.
  cbn [rest caps]. do 2 f_equal.
  rewrite !length_app. cbn [length]. rewrite !length_app. cbn [length]. lia.
Qed.

Lemma segments_text pre junk label body segments (trailing : jsstring) :
  pre ++ flat_map segmentText ((junk, (label, body)) :: segments) ++ trailing
  = pre ++ junk
      ++ (label ++ 58%N :: 32%N :: body
            ++ LF :: LF :: (flat_map segmentText segments ++ trailing)).
Proof.
  cbn [flat_map]. unfold segmentText at 1. cbn [fst snd].
  rewrite <- blockText_tail. now rewrite <- !app_assoc.
Qed.

Lemma entry_prefix_assoc (pre junk label body tail : jsstring) :
  pre ++ junk ++ (label ++ 58%N :: 32%N :: body ++ LF :: LF :: tail)
  = (pre ++ junk ++ (label ++ 58%N :: 32%N :: body ++ [LF; LF])) ++ tail.
Proof.
  rewrite <- !app_assoc. do 3 f_equal. cbn [app]. do 2 f_equal.
  now rewrite <- app_assoc.
Qed.

Lemma textBlocks_segments segments trailing : forall pre fuel,
  forallb (fun sb => noLabelChar (fst sb) && wellFormedBlock (snd sb)) segments
  = true ->
  noLabelChar trailing = true ->
  length (flat_map segmentText segments ++ trailing) < fuel ->
  textBlocks fuel (pre ++ flat_map segmentText segments ++ trailing)
    (mkRegExp blockPattern (length pre))
  = map snd segments.
Proof.
  induction segments as [|[junk [label body]] segments IH];
    intros pre [|fuel] Hok Htrail Hfuel; try lia.
  - cbn [flat_map textBlocks map app]. unfold exec. cbn [lastIndex source].
    rewrite skipn_length_app, (searchFrom_noLabel _ _ Htrail).
    destruct (length (pre ++ trailing) <? length pre); reflexivity.
  - cbn [forallb fst snd] in Hok. rewrite !andb_true_iff in Hok.
    destruct Hok as [[Hj Hb] Hok].
    destruct (wellFormedBlock_inv _ Hb)
      as (a & u & v & b & Hne & Hlab & Ha & Hwa & Hv & Hwb & Hblank).
    cbn [fst snd] in Hne, Hlab, Ha, Hv, Hblank.
    assert (Hlen : length (flat_map segmentText segments ++ trailing) < fuel).
    { pose proof (f_equal (@length _)
                    (segments_text [] junk label body segments trailing)) as E.
      cbn [app] in E. rewrite E in Hfuel. rewrite !length_app in Hfuel.
      cbn [length] in Hfuel. rewrite !length_app in Hfuel.
      cbn [length] in Hfuel. lia. }
    rewrite segments_text.
    set (tail := flat_map segmentText segments ++ trailing) in *.
    cbn [textBlocks map].
    rewrite (exec_junk_entry pre junk label body a u v b tail) by assumption.
    cbn [group capture groups Nat.eqb stringData snd]. f_equal.
    rewrite entry_prefix_assoc. apply IH; assumption.
Qed.

(** X7. Text that holds no label character (blank lines, punctuation) before,
    between and after well-formed blocks is dropped: [platoTextToCmj] returns
    the messages of the blocks alone, in order. *)
Theorem text_between_blocks_dropped
    (toUpperCase : jsstring -> jsstring)
    (segments : list (jsstring * (jsstring * jsstring))) (trailing : jsstring) :
  segments <> [] ->
  forallb (fun sb => noLabelChar (fst sb) && wellFormedBlock (snd sb)) segments
  = true ->
  noLabelChar trailing = true ->
  platoTextToCmj toUpperCase
    (JsString (flat_map segmentText segments ++ trailing))
  = Normal (map (blockMessage toUpperCase) (map snd segments)).
Proof.
  intros Hne Hok Htrail. rewrite platoTextToCmj_blocks.
  - unfold blocksOf. f_equal. f_equal.
    apply (textBlocks_segments segments trailing [] _ Hok Htrail
             (Nat.lt_succ_diag_r _)).
  - destruct segments as [|[junk [label body]] segments]; [congruence|].
    cbn [forallb fst snd] in Hok. rewrite !andb_true_iff in Hok.
    destruct Hok as [[_ Hb] _].
    apply wellFormedBlock_inv in Hb. destruct Hb as (_ & _ & _ & _ & H & _).
    cbn [fst snd] in H. cbn [flat_map]. unfold segmentText, blockText.
    cbn [fst snd]. intros E.
    apply (f_equal (@length _)) in E. rewrite !length_app in E.
    destruct label; [congruence|]. cbn [length] in E. lia.
Qed.

Lemma text_between_blocks_dropped_witness :
  junkSegments <> []
  /\ forallb (fun sb => noLabelChar (fst sb) && wellFormedBlock (snd sb))
       junkSegments = true
  /\ noLabelChar [LF; 33%N; LF] = true
  /\ platoTextToCmj basicLatinUpper
       (JsString (flat_map segmentText junkSegments ++ [LF; 33%N; LF]))
     = Normal (map (blockMessage basicLatinUpper) (map snd junkSegments)).
Proof.
  assert (Hne : junkSegments <> []) by discriminate.
  assert (Hok : forallb (fun sb => noLabelChar (fst sb)
                                   && wellFormedBlock (snd sb)) junkSegments
                = true) by reflexivity.
  assert (Htrail : noLabelChar [LF; 33%N; LF] = true) by reflexivity.
  split; [exact Hne|]. split; [exact Hok|]. split; [exact Htrail|].
  exact (text_between_blocks_dropped basicLatinUpper junkSegments
           [LF; 33%N; LF] Hne Hok Htrail).
Defined.

(** ** Reading back the paragraphs that were written *)

Lemma replaceString_unfold pat repl s :
  replaceString pat repl s
  = if startsWith pat s then repl ++ skipn (length pat) s
    else match s with
         | [] => []
         | c :: s' => c :: replaceString pat repl s'
         end.
Proof. destruct s; reflexivity. Qed.

Lemma startsWith_app pat s : startsWith pat (pat ++ s) = true.
Proof.
  induction pat as [|c pat IH]; cbn [app startsWith]; [reflexivity|].
  now rewrite N.eqb_refl, IH.
Qed.

(** The label taken out of a text it starts. *)
Lemma replaceString_prefix pat s : replaceString pat [] (pat ++ s) = s.
Proof.
  rewrite replaceString_unfold, startsWith_app. cbn [app].
  apply skipn_length_app.
Qed.

Lemma searchFrom_colon_none s : forall i,
  noColon s = true -> searchFrom colonPattern i s = None.
Proof.
  unfold noColon. induction s as [|c s IH]; intros i Hs; [reflexivity|].
  cbn [existsb] in Hs. rewrite negb_orb in Hs. apply andb_true_iff in Hs.
  destruct Hs as [Hc Hs]. apply negb_true_iff in Hc.
  cbn [searchFrom]. unfold matchAt, colonPattern, Chr. cbn [matcher rest caps].
  rewrite Hc. apply (IH (S i) Hs).
Qed.

(** [/:\s*/] leaves a text without a colon as it is. *)
Lemma replace_colon_none s :
  noColon s = true -> replaceRegExp colonPattern false [] s = s.
Proof.
  intros Hs. unfold replaceRegExp. cbn [replaceFrom].
  now rewrite searchFrom_colon_none.
Qed.

Lemma utteranceOf_written label content :
  noColon content = true ->
  utteranceOf label (label ++ 32%N :: content) = trim content.
Proof.
  intros Hc. unfold utteranceOf. rewrite replaceString_prefix.
  rewrite replace_colon_none by exact Hc. reflexivity.
Qed.

(** A class selector matches the class it is written with, in every mode. *)
Lemma classMatches_refl mode c : classMatches mode c c = true.
Proof. destruct mode; apply jsstring_eqb_eq; reflexivity. Qed.

Lemma querySelector_written doc block :
  querySelector doc (writtenParagraph block) (js "span") (js "speaker")
  = Some (Element (js "span") [js "speaker"] [Text (fst block)]).
Proof.
  unfold querySelector, writtenParagraph.
  cbn [descendants flat_map app filter matchesSelector existsb].
  rewrite classMatches_refl. reflexivity.
Qed.

Lemma paragraphMessage_written toUpperCase identity doc block :
  noColon (snd block) = true ->
  paragraphMessage toUpperCase identity doc (writtenParagraph block)
  = Some (mkMessage (roleFor toUpperCase identity (trim (fst block)))
            (trim (fst block)) (trim (snd block))).
Proof.
  intros Hc. unfold paragraphMessage. rewrite querySelector_written.
  unfold writtenParagraph.
  change (textContent (Element (js "span") [js "speaker"] [Text (fst block)]))
    with (fst block ++ []).
  change (textContent
            (Element (js "p") [js "dialogue"]
               [Element (js "span") [js "speaker"] [Text (fst block)];
                Text (32%N :: snd block)]))
    with ((fst block ++ []) ++ (32%N :: snd block) ++ []).
  rewrite !app_nil_r. now rewrite (utteranceOf_written _ _ Hc).
Qed.

(** X8. When the dialogue paragraphs of the parsed markup, all those the
    selector finds in the mode of the document, are those
    [platoTextToPlatoHtml] writes for a list of blocks (the label in the
    speaker span, a space and the content after it) and no content holds a
    colon, [platoHtmlToPlatoText] returns the blocks as text and
    [platoHtmlToCmj] their messages: labels and contents come back trimmed,
    in order. *)
Theorem written_paragraphs_read_back
    (toUpperCase : jsstring -> jsstring) (parseFromString : jsstring -> Document)
    (machineConfig_name : jsstring) (s : jsstring)
    (blocks : list (jsstring * jsstring)) :
  trim s <> [] ->
  querySelectorAll (parseFromString s) (js "p") (js "dialogue")
  = map writtenParagraph blocks ->
  forallb (fun b => noColon (snd b)) blocks = true ->
  platoHtmlToPlatoText parseFromString (JsString s)
  = Normal (flat_map (fun b => blockText (trim (fst b), trim (snd b))) blocks)
  /\ platoHtmlToCmj toUpperCase parseFromString machineConfig_name (JsString s)
     = Normal (map (fun b => mkMessage
                      (roleFor toUpperCase machineConfig_name (trim (fst b)))
                      (trim (fst b)) (trim (snd b))) blocks).
Proof.
  intros Hs Hdoc Hcolon.
  assert (Hne : s <> []) by (intros ->; now apply Hs).
  unfold platoHtmlToPlatoText, platoHtmlToCmj.
  destruct (guard_cases (JsString s)) as [[_ [[= E] | E]] | [-> _]];
    [congruence | now elim E |].
  cbn [typeof stringData ToBoolean].
  change (jsstring_eqb (js "string") (js "string")) with true. cbn [negb].
  rewrite negb_involutive.
  destruct (jsstring_eqb_spec (trim s) []) as [E|_]; [congruence|].
  rewrite Hdoc.
  rewrite (platoHtmlToCmj_fold toUpperCase machineConfig_name),
    (platoHtmlToPlatoText_fold toUpperCase machineConfig_name).
  cbn [app]. rewrite !flat_map_map.
  split; f_equal; clear Hdoc;
    induction blocks as [|b blocks IH]; try reflexivity;
    cbn [forallb] in Hcolon; apply andb_true_iff in Hcolon;
    destruct Hcolon as [Hb Hrest]; cbn [flat_map map];
    rewrite (IH Hrest), (paragraphMessage_written _ _ _ _ Hb).
  - cbn [optionList flat_map]. rewrite entryText_messageValue.
    cbn [name content]. unfold blockText. cbn [fst snd].
    now rewrite !trim_idem, app_nil_r.
  - reflexivity.
Qed.

Lemma written_paragraphs_read_back_witness :
  trim writtenMarkup <> []
  /\ querySelectorAll writtenDocument (js "p") (js "dialogue")
     = map writtenParagraph writtenBlocks
  /\ forallb (fun b => noColon (snd b)) writtenBlocks = true
  /\ platoHtmlToPlatoText (fun _ => writtenDocument) (JsString writtenMarkup)
     = Normal (flat_map (fun b => blockText (trim (fst b), trim (snd b)))
                 writtenBlocks)
  /\ platoHtmlToCmj basicLatinUpper (fun _ => writtenDocument) MACHINA
       (JsString writtenMarkup)
     = Normal (map (fun b => mkMessage
                      (roleFor basicLatinUpper MACHINA (trim (fst b)))
                      (trim (fst b)) (trim (snd b))) writtenBlocks).
Proof.
  assert (Hs : trim writtenMarkup <> []) by (vm_compute; discriminate).
  assert (Hdoc : querySelectorAll ((fun _ => writtenDocument) writtenMarkup)
                   (js "p") (js "dialogue")
                 = map writtenParagraph writtenBlocks) by reflexivity.
  assert (Hc : forallb (fun b => noColon (snd b)) writtenBlocks = true)
    by reflexivity.
  split; [exact Hs|]. split; [exact Hdoc|]. split; [exact Hc|].
  exact (written_paragraphs_read_back basicLatinUpper (fun _ => writtenDocument)
           MACHINA writtenMarkup writtenBlocks Hs Hdoc Hc).
Defined.

(** ** What text to CMJ never returns *)

(** A lazy quantifier's result comes from the first place where the
    continuation accepts: at every earlier place it refused. *)
Lemma repeatMatcher_lazy_inv p s : forall k res,
  repeatMatcher p false 0 s k = Some res ->
  exists t s', s = t ++ s' /\ forallb p t = true /\ k s' = Some res
               /\ forall t1 t2, t = t1 ++ t2 -> t2 <> [] -> k (t2 ++ s') = None.
Proof.
  induction s as [|c s IH]; intros k res H; simpl in H.
  - exists [], []. repeat split.
    + destruct (k []); [exact H | discriminate].
    + intros t1 t2 E Hne. symmetry in E. apply app_eq_nil in E. tauto.
  - destruct (k (c :: s)) as [r|] eqn:Hk.
    + injection H as <-. exists [], (c :: s). repeat split; auto.
      intros t1 t2 E Hne. symmetry in E. apply app_eq_nil in E. tauto.
    + destruct (p c) eqn:Hc; [|discriminate].
      destruct (IH _ _ H) as (t & s' & -> & Hp & Hres & Hfail).
      exists (c :: t), s'. cbn [forallb app]. rewrite Hc.
      repeat split; auto.
      intros [|d t1] t2 E Hne; cbn [app] in E.
      * subst t2. exact Hk.
      * injection E as _ E. now apply (Hfail t1 t2).
Qed.

Lemma hasBlankLine_unfold c d s :
  hasBlankLine (c :: d :: s)
  = (N.eqb c LF && N.eqb d LF) || hasBlankLine (d :: s).
Proof. reflexivity. Qed.

(** A text none of whose non-empty ends, put before a blank line, starts
    with a blank line, holds no blank line. *)
Lemma blank_free body r :
  (forall t1 t2, body = t1 ++ t2 -> t2 <> [] ->
                 forall u, t2 ++ LF :: LF :: r <> LF :: LF :: u) ->
  hasBlankLine body = false.
Proof.
  induction body as [|c body IH]; intros H; [reflexivity|].
  destruct body as [|d body]; [reflexivity|].
  rewrite hasBlankLine_unfold. apply orb_false_iff. split.
  - destruct (N.eqb_spec c LF) as [->|Hc]; [|reflexivity].
    destruct (N.eqb_spec d LF) as [->|Hd]; [|reflexivity].
    exfalso.
    apply (H [] (LF :: LF :: body) eq_refl) with (u := body ++ LF :: LF :: r);
      [discriminate | reflexivity].
  - apply IH. intros t1 t2 E Hne.
    apply (H (c :: t1) t2); [cbn [app]; now rewrite E | exact Hne].
Qed.

(** The body of a match of the block pattern holds no blank line: the lazy
    group stops at the first one. *)
Lemma blockPattern_body s y :
  matchAt blockPattern s = Some y ->
  exists label body,
    caps y = [(2, body); (1, label)] /\ hasBlankLine body = false.
Proof.
  unfold matchAt, blockPattern, Chr. cbn [matcher rest caps]. intros H.
  apply repeatMatcher_inv in H. destruct H as (label & s1 & -> & _ & _ & H).
  destruct s1 as [|c s1]; [discriminate|].
  destruct (N.eqb 58 c); [|discriminate].
  apply repeatMatcher_inv in H. destruct H as (ws & s2 & -> & _ & _ & H).
  apply repeatMatcher_lazy_inv in H.
  destruct H as (body & s3 & -> & _ & H & Hfail).
  destruct s3 as [|c1 s3]; [discriminate|].
  destruct (N.eqb_spec LF c1) as [<-|]; [|discriminate].
  destruct s3 as [|c2 s3]; [discriminate|].
  destruct (N.eqb_spec LF c2) as [<-|]; [|discriminate].
  injection H as <-. cbn [caps].
  rewrite (firstn_consumed body), (firstn_consumed label).
  exists label, body. split; [reflexivity|].
  apply (blank_free body s3). intros t1 t2 E Hne u Hu.
  specialize (Hfail t1 t2 E Hne). rewrite Hu in Hfail.
  rewrite !N.eqb_refl in Hfail. discriminate.
Qed.

Lemma textBlocks_bodies platoText : forall fuel i,
  Forall (fun b => hasBlankLine (snd b) = false)
    (textBlocks fuel platoText (mkRegExp blockPattern i)).
Proof.
  induction fuel as [|fuel IH]; intros i; cbn [textBlocks]; [constructor|].
  destruct (exec (mkRegExp blockPattern i) platoText) as [re' [m|]] eqn:He;
    [|constructor].
  destruct (exec_blockPattern He) as (_ & _ & j & _ & _ & _ & _ & -> & _).
  constructor; [|apply IH].
  unfold exec in He. cbn [lastIndex source] in He.
  destruct (length platoText <? i); [discriminate|].
  destruct (searchFrom blockPattern i (skipn i platoText)) as [[k y]|] eqn:Hs;
    [|discriminate].
  injection He as _ <-.
  apply searchFrom_inv in Hs. destruct Hs as (_ & s' & _ & _ & Hm).
  apply blockPattern_body in Hm. destruct Hm as (label & body & Hcaps & Hb).
  unfold group. cbn [groups snd]. rewrite Hcaps. exact Hb.
Qed.

Lemma hasBlankLine_prefix a b :
  hasBlankLine (a ++ b) = false -> hasBlankLine a = false.
Proof.
  induction a as [|c a IH]; [reflexivity|].
  destruct a as [|d a]; [reflexivity|].
  cbn [app]. rewrite !hasBlankLine_unfold, !orb_false_iff.
  intros [Hcd H]. split; [exact Hcd | now apply IH].
Qed.

Lemma dropWhile_split p s : exists pre, s = pre ++ dropWhile p s.
Proof.
  induction s as [|c s [pre IH]]; [now exists []|]. cbn [dropWhile].
  destruct (p c); [|now exists []].
  exists (c :: pre). cbn [app]. now rewrite <- IH.
Qed.

(** [trim] returns a stretch of the string it is given. *)
Lemma trim_infix s : exists pre post, s = pre ++ trim s ++ post.
Proof.
  unfold trim, trimStart, trimEnd.
  destruct (dropWhile_split isWhiteSpace s) as [pre Hpre].
  destruct (dropWhile_split isWhiteSpace (rev (dropWhile isWhiteSpace s)))
    as [q Hq].
  exists pre, (rev q). rewrite Hpre at 1. f_equal.
  rewrite <- (rev_involutive (dropWhile isWhiteSpace s)) at 1.
  rewrite Hq at 1. apply rev_app_distr.
Qed.

Lemma hasBlankLine_trim s :
  hasBlankLine s = false -> hasBlankLine (trim s) = false.
Proof.
  destruct (trim_infix s) as (pre & post & E). intros H. rewrite E in H.
  apply hasBlankLine_suffix in H. now apply hasBlankLine_prefix in H.
Qed.

(** X9. Every message [platoTextToCmj] returns has a name made of label
    characters only (letters, digits, underscore, space, hyphen) and a
    content without a blank line, whatever the text: nothing it returns can
    run two blocks together when written back by [CmjToPlatoText]. *)
Theorem platoTextToCmj_names_and_contents
    (toUpperCase : jsstring -> jsstring) (v : JsValue) :
  producesAll
    (fun m => forallb isLabelChar (name m) = true
              /\ hasBlankLine (content m) = false)
    v (platoTextToCmj toUpperCase v).
Proof.
  destruct (guard_cases v) as [[Hg Hv] | [_ (s & -> & Hs)]].
  - unfold platoTextToCmj. rewrite Hg. exact Hv.
  - rewrite platoTextToCmj_blocks by assumption. cbn [producesAll].
    apply Forall_map. unfold blocksOf.
    pose proof (textBlocks_labels s (S (length s)) 0) as Hlab.
    pose proof (textBlocks_bodies s (S (length s)) 0) as Hbody.
    rewrite Forall_forall in *. intros b Hb. cbn [blockMessage name content].
    split.
    + apply forallb_trim, (Hlab b Hb).
    + apply hasBlankLine_trim, (Hbody b Hb).
Qed.

(** ** Parsing, printing and parsing again *)

Lemma blockMessage_wellFormed toUpperCase b :
  forallb isLabelChar (fst b) = true -> hasBlankLine (snd b) = false ->
  name (blockMessage toUpperCase b) <> [] ->
  content (blockMessage toUpperCase b) <> [] ->
  wellFormedBlock (name (blockMessage toUpperCase b),
                   content (blockMessage toUpperCase b)) = true
  /\ blockMessage toUpperCase
       (name (blockMessage toUpperCase b), content (blockMessage toUpperCase b))
     = blockMessage toUpperCase b
  /\ entryText (messageValue (blockMessage toUpperCase b))
     = blockText (name (blockMessage toUpperCase b),
                  content (blockMessage toUpperCase b)).
Proof.
  cbn [blockMessage name content]. intros Hlab Hblank Hn Hc.
  unfold wellFormedBlock. cbn [fst snd]. repeat split.
  - rewrite !andb_true_iff, !negb_true_iff, !jsstring_eqb_neq, jsstring_eqb_eq.
    repeat split; auto.
    + now apply forallb_trim.
    + apply trim_idem.
    + now apply hasBlankLine_trim.
  - unfold blockMessage. cbn [fst snd]. now rewrite !trim_idem.
  - rewrite entryText_messageValue. unfold blockText, blockMessage.
    cbn [name content fst snd]. now rewrite !trim_idem.
Qed.

(** X10. The messages [platoTextToCmj] returns for a text come back unchanged
    when written by [CmjToPlatoText] and read by [platoTextToCmj] again,
    provided there is at least one and none has an empty name or an empty
    content. *)
Theorem parsed_messages_survive_round_trip
    (toUpperCase : jsstring -> jsstring) (v : JsValue)
    (messages : list Message) (console : Console) :
  platoTextToCmj toUpperCase v = Normal messages ->
  messages <> [] ->
  Forall (fun m => name m <> [] /\ content m <> []) messages ->
  (text <- returned (CmjToPlatoText (JsArray (map messageValue messages))
                       console) ;;
   platoTextToCmj toUpperCase (JsString text))
  = Normal messages.
Proof.
  intros Hparse Hne Hfull.
  destruct (guard_cases v) as [[Hg _] | [_ (s & -> & Hs)]].
  { unfold platoTextToCmj in Hparse. rewrite Hg in Hparse. discriminate. }
  rewrite platoTextToCmj_blocks in Hparse by assumption.
  injection Hparse as <-.
  pose proof (textBlocks_labels s (S (length s)) 0) as Hlab.
  pose proof (textBlocks_bodies s (S (length s)) 0) as Hbody.
  fold (blocksOf s) in Hlab, Hbody.
  set (blocks := blocksOf s) in *.
  set (canon := map (fun b => (name (blockMessage toUpperCase b),
                               content (blockMessage toUpperCase b))) blocks).
  assert (H : forallb wellFormedBlock canon = true
              /\ map (blockMessage toUpperCase) canon
                 = map (blockMessage toUpperCase) blocks
              /\ flat_map entryText
                   (map messageValue (map (blockMessage toUpperCase) blocks))
                 = flat_map blockText canon).
  { unfold canon. clear Hne canon.
    induction blocks as [|b blocks IH]; [repeat split|].
    inversion Hlab as [|? ? [_ Hl] Hlab']; subst.
    inversion Hbody as [|? ? Hb Hbody']; subst.
    inversion Hfull as [|? ? [Hn Hc] Hfull']; subst.
    destruct (IH Hfull' Hlab' Hbody') as (IH1 & IH2 & IH3).
    destruct (blockMessage_wellFormed toUpperCase b Hl Hb Hn Hc)
      as (H1 & H2 & H3).
    cbn [map forallb flat_map]. rewrite H1, IH1, H2, IH2, H3, IH3.
    repeat split. }
  destruct H as (Hwf & Hsame & Htext).
  rewrite returned_CmjToPlatoText. cbn [bind]. rewrite Htext.
  rewrite platoTextToCmj_blocks.
  - now rewrite (blocksOf_wellFormed _ Hwf), Hsame.
  - apply flat_map_blockText_nonempty; [|exact Hwf].
    unfold canon. destruct blocks; [now elim Hne | discriminate].
Qed.

Lemma parsed_messages_survive_round_trip_witness :
  platoTextToCmj basicLatinUpper (JsString scenarioText)
  = Normal [mkMessage (js "assistant") MACHINA (js "Hello there.");
            mkMessage (js "system") (js "INSTRUCTIONS") (js "Be concise.");
            mkMessage (js "user") (js "Alice") (js "Hi!")]
  /\ (text <- returned
                (CmjToPlatoText
                   (JsArray (map messageValue
                      [mkMessage (js "assistant") MACHINA (js "Hello there.");
                       mkMessage (js "system") (js "INSTRUCTIONS")
                         (js "Be concise.");
                       mkMessage (js "user") (js "Alice") (js "Hi!")])) []) ;;
      platoTextToCmj basicLatinUpper (JsString text))
     = Normal [mkMessage (js "assistant") MACHINA (js "Hello there.");
               mkMessage (js "system") (js "INSTRUCTIONS") (js "Be concise.");
               mkMessage (js "user") (js "Alice") (js "Hi!")].
Proof.
  assert (Hparse : platoTextToCmj basicLatinUpper (JsString scenarioText)
                   = Normal [mkMessage (js "assistant") MACHINA
                               (js "Hello there.");
                             mkMessage (js "system") (js "INSTRUCTIONS")
                               (js "Be concise.");
                             mkMessage (js "user") (js "Alice") (js "Hi!")])
    by (vm_compute; reflexivity).
  split; [exact Hparse|].
  apply (parsed_messages_survive_round_trip basicLatinUpper
           (JsString scenarioText) _ [] Hparse).
  - discriminate.
  - repeat constructor; discriminate.
Defined.
